(** * jsonyx [patch.py]: a shallow embedding of the query parser, the
    traverser, the filter evaluator and the patch executor.

    Python objects live in a heap of containers (lists and dicts) that
    are addressed by reference, so that nodes [(target, key)] alias the
    document exactly as they do in the program.  Exceptions are results
    [Raise e]; the [while True] loops run on a fuel that the entry points
    set from the length of the query, and that is shown below never to
    be what stops them.

    What the model leaves out: characters are bytes, so a query is an
    ASCII string and a digit is one of 0-9; scalars have no identity (a
    NaN is never equal to itself, also inside a list); the keys of a
    dict are strings; floats are the binary64 numbers of [SpecFloat];
    exceptions carry no message and no position, as in the program. *)

From Stdlib Require Import ZArith String Ascii List Bool Lia SpecFloat.
From Stdlib Require DecimalString DecimalZ DecimalPos DecimalFacts.
From stdpp Require Import base list strings sorting.
Import ListNotations.

Local Open Scope string_scope.
Local Open Scope list_scope.
Local Open Scope Z_scope.

(** ** Results and exceptions *)

Inductive exn : Type :=
  | SyntaxError | TypeError | ValueError | KeyError | IndexError
  | OverflowError.

(** [Stuck] is not a Python outcome: it marks what the model does not
    cover (fuel exhausted, a dangling address, a key that is not a
    string entering a dict). *)
Inductive res (A : Type) : Type :=
  | Ok (a : A)
  | Raise (e : exn)
  | Stuck.
Arguments Ok {A} a.
Arguments Raise {A} e.
Arguments Stuck {A}.

#[global] Instance res_ret : MRet res := fun A a => Ok a.
#[global] Instance res_bind : MBind res := fun A B f r =>
  match r with
  | Ok a => f a
  | Raise e => Raise e
  | Stuck => Stuck
  end.

#[global] Instance res_fmap : FMap res := fun A B f r =>
  match r with
  | Ok a => Ok (f a)
  | Raise e => Raise e
  | Stuck => Stuck
  end.

Fixpoint rmapM {A B} (f : A -> res B) (l : list A) : res (list B) :=
  match l with
  | [] => Ok []
  | x :: l' => y ← f x; ys ← rmapM f l'; Ok (y :: ys)
  end.

(** ** Strings: slicing and the five regular expressions *)

Definition char_in (c : ascii) (cs : list ascii) : bool :=
  existsb (Ascii.eqb c) cs.

Fixpoint str_drop (n : nat) (s : string) : string :=
  match n, s with
  | O, _ => s
  | S n', String _ s' => str_drop n' s'
  | S _, EmptyString => EmptyString
  end.

(** [s[i:i+k]] for non-negative [i]. *)
Definition slice_str (s : string) (i k : nat) : string := substring i k s.

Fixpoint span_str (p : ascii -> bool) (s : string) : string :=
  match s with
  | String c s' => if p c then String c (span_str p s') else EmptyString
  | EmptyString => EmptyString
  end.

Definition is_digit (c : ascii) : bool :=
  char_in c ["0";"1";"2";"3";"4";"5";"6";"7";"8";"9"]%char.

Definition is_digit19 (c : ascii) : bool :=
  char_in c ["1";"2";"3";"4";"5";"6";"7";"8";"9"]%char.

(** An optional minus sign, then 0 or a digit 1-9 followed by digits
    (the integer pattern shared by the index and number expressions),
    at the head of [r]: the matched text. *)
Definition re_int (r : string) : option string :=
  let '(sign, r1) :=
    match r with
    | String "-" r' => ("-", r')
    | _ => ("", r)
    end in
  match r1 with
  | String "0" _ => Some (sign +:+ "0")
  | String d r2 =>
      if is_digit19 d then Some (sign +:+ String d (span_str is_digit r2))
      else None
  | EmptyString => None
  end.

(** The alternatives end, start, integer, tried in that order. *)
Definition re_idx (r : string) : option string :=
  if String.eqb (substring 0 3 r) "end" then Some "end"
  else if String.eqb (substring 0 5 r) "start" then Some "start"
  else re_int r.

(** A dot followed by one or more digits. *)
Definition re_frac (r : string) : option string :=
  match r with
  | String "." r' =>
      match span_str is_digit r' with
      | EmptyString => None
      | ds => Some (String "." ds)
      end
  | _ => None
  end.

(** e or E, an optional sign, one or more digits. *)
Definition re_exp (r : string) : option string :=
  match r with
  | String e r' =>
      if char_in e ["e";"E"]%char then
        let '(sign, r1) :=
          match r' with
          | String sg r2 =>
              if char_in sg ["-";"+"]%char then (String sg "", r2)
              else ("", r')
          | EmptyString => ("", r')
          end in
        match span_str is_digit r1 with
        | EmptyString => None
        | ds => Some (String e (sign +:+ ds))
        end
      else None
  | EmptyString => None
  end.

(** The join of the chunks on the empty separator. *)
Definition str_join (chunks : list string) : string :=
  foldr String.append "" chunks.

(** A match object: the groups and [match.end()].  [pattern.match(s, pos)]
    clamps [pos] to the length of [s]. *)
Definition match_pos (s : string) (pos : nat) : nat :=
  Nat.min pos (String.length s).

Definition _match_idx (s : string) (pos : nat) : option (string * nat) :=
  let p := match_pos s pos in
  g ← re_idx (str_drop p s); Some (g, (p + String.length g)%nat).

Definition _match_int (s : string) (pos : nat) : option (string * nat) :=
  let p := match_pos s pos in
  g ← re_int (str_drop p s); Some (g, (p + String.length g)%nat).

Definition key_ctrl : list ascii :=
  ["!";"&";".";"<";"=";">";"[";"]";"~"]%char.

(** The longest run of characters outside [key_ctrl]; it always
    matches, possibly the empty string. *)
Definition _match_key_chunk (s : string) (pos : nat) : string * nat :=
  let p := match_pos s pos in
  let g := span_str (fun c => negb (char_in c key_ctrl)) (str_drop p s) in
  (g, (p + String.length g)%nat).

(** The longest run of characters other than the quote and the tilde. *)
Definition _match_str_chunk (s : string) (pos : nat) : string * nat :=
  let p := match_pos s pos in
  let g := span_str (fun c => negb (char_in c ["'";"~"]%char)) (str_drop p s) in
  (g, (p + String.length g)%nat).

(** Integer part, optional fraction, optional exponent: the three
    groups and the end of the match. *)
Definition _match_number (s : string) (pos : nat)
  : option (string * option string * option string * nat) :=
  let p := match_pos s pos in
  let r := str_drop p s in
  integer ← re_int r;
  let n1 := String.length integer in
  let frac := re_frac (str_drop n1 r) in
  let n2 := (n1 + from_option String.length 0%nat frac)%nat in
  let exp := re_exp (str_drop n2 r) in
  let n3 := (n2 + from_option String.length 0%nat exp)%nat in
  Some (integer, frac, exp, (p + n3)%nat).

(** ** Python values, containers and the heap *)

(** Addresses are positions in the heap. *)
Abbreviation addr := nat (only parsing).

(** Scalars are immediate; a list or a dict is a reference into the
    heap, so that two nodes on one container see each other's writes. *)
Inductive pyval : Type :=
  | PNone
  | PBool (b : bool)
  | PInt (n : Z)
  | PFloat (f : spec_float)
  | PStr (s : string)
  | PRef (a : addr).

(** A dict keeps its insertion order; its keys are strings and unique. *)
Inductive pyobj : Type :=
  | PList (items : list pyval)
  | PDict (items : list (string * pyval)).

Abbreviation heap := (list pyobj) (only parsing).

(** The key of a node: [int], [str] or [slice(start, stop[, step])]. *)
Inductive key : Type :=
  | KInt (i : Z)
  | KStr (s : string)
  | KSlice (start stop : Z) (step : option Z).

Abbreviation node := (addr * key)%type (only parsing).

#[global] Instance exn_eq_dec : EqDecision exn.
Proof. solve_decision. Defined.
#[global] Instance key_eq_dec : EqDecision key.
Proof. solve_decision. Defined.

(** ** Numbers: [int(...)], [float(...)], [sys.maxsize] *)

(** [sys.maxsize] of a 64-bit CPython. *)
Definition maxsize : Z := 2 ^ 63 - 1.

Definition digit_val (c : ascii) : Z := Z.of_nat (nat_of_ascii c) - 48.

Fixpoint digits_val (acc : Z) (s : string) : Z :=
  match s with
  | String c s' => digits_val (10 * acc + digit_val c) s'
  | EmptyString => acc
  end.

(** [int(group)] on a text matched by the integer pattern. *)
Definition int_of_str (g : string) : Z :=
  match g with
  | String "-" r => - digits_val 0 r
  | _ => digits_val 0 g
  end.

(** The binary64 number nearest to [(-1)^neg * m * 10^e], ties to even. *)
Definition float_of_decimal (neg : bool) (m e : Z) : spec_float :=
  match m with
  | Zpos p =>
      if 0 <=? e then
        binary_normalize 53 1024 (if neg then - (m * 10 ^ e) else m * 10 ^ e)
          0 neg
      else
        SFdiv 53 1024 (S754_finite neg p 0)
          (S754_finite false (Z.to_pos (10 ^ (- e))) 0)
  | _ => S754_zero neg
  end.

(** [float(integer + frac + exp)] on the groups of the number pattern. *)
Definition float_of_literal (integer : string) (frac exp : option string)
  : spec_float :=
  let '(neg, int_digits) :=
    match integer with
    | String "-" r => (true, r)
    | _ => (false, integer)
    end in
  let frac_digits := from_option (str_drop 1) "" frac in
  let exp_val :=
    match from_option (str_drop 1) "" exp with
    | String "-" r => - digits_val 0 r
    | String "+" r => digits_val 0 r
    | r => digits_val 0 r
    end in
  float_of_decimal neg (digits_val 0 (int_digits +:+ frac_digits))
    (exp_val - Z.of_nat (String.length frac_digits)).

(** [math.isinf] *)
Definition isinf (f : spec_float) : bool :=
  match f with
  | S754_infinity _ => true
  | _ => false
  end.

(** ** The readers: keys, indices, operators, literals *)

Definition key_escapes : list ascii :=
  ["!";"&";".";"<";"=";">";"[";"]";"~"]%char.

Fixpoint _get_key_loop (fuel : nat) (s : string) (end_ : nat)
    (chunks : list string) : res (string * nat) :=
  match fuel with
  | O => Stuck
  | S fuel' =>
      let '(g, end1) := _match_key_chunk s end_ in
      let chunks := chunks ++ [g] in
      if negb (String.eqb (slice_str s end1 1) "~") then
        Ok (str_join chunks, end1)
      else
        let end2 := S end1 in
        match String.get end2 s with
        | None => Raise SyntaxError
        | Some esc =>
            if negb (char_in esc key_escapes) then Raise SyntaxError
            else _get_key_loop fuel' s (S end2) (chunks ++ [String esc ""])
        end
  end.

Definition _get_key (s : string) (end_ : nat) : res (string * nat) :=
  _get_key_loop (S (String.length s)) s end_ [].

Definition _get_idx (m : string * nat) : Z * nat :=
  let '(group, e) := m in
  if String.eqb group "end" then (maxsize, e)
  else if String.eqb group "start" then (- maxsize - 1, e)
  else (int_of_str group, e).

(** The six functions of Python's [operator] module that the filter uses. *)
Module operator.
Inductive t : Type := lt | le | eq | ne | ge | gt.
End operator.

Definition _get_operator (s : string) (end_ : nat)
  : option operator.t * nat :=
  if String.eqb (slice_str s end_ 1) "<" then (Some operator.lt, S end_)
  else if String.eqb (slice_str s end_ 1) "<=" then
    (Some operator.le, S (S end_))
  else if String.eqb (slice_str s end_ 2) "==" then
    (Some operator.eq, S (S end_))
  else if String.eqb (slice_str s end_ 2) "!=" then
    (Some operator.ne, S (S end_))
  else if String.eqb (slice_str s end_ 1) ">=" then
    (Some operator.ge, S (S end_))
  else if String.eqb (slice_str s end_ 1) ">" then (Some operator.gt, S end_)
  else (None, end_).

Definition str_escapes : list ascii := ["'";"~"]%char.

Fixpoint _get_str_loop (fuel : nat) (s : string) (end_ : nat)
    (chunks : list string) : res (string * nat) :=
  match fuel with
  | O => Stuck
  | S fuel' =>
      let '(g, end1) := _match_str_chunk s end_ in
      let chunks := chunks ++ [g] in
      match String.get end1 s with
      | None => Raise SyntaxError
      | Some terminator =>
          if Ascii.eqb terminator "'" then
            Ok (str_join chunks, S end1)
          else
            let end2 := S end1 in
            match String.get end2 s with
            | None => Raise SyntaxError
            | Some esc =>
                if negb (char_in esc str_escapes) then Raise SyntaxError
                else _get_str_loop fuel' s (S end2) (chunks ++ [String esc ""])
            end
      end
  end.

Definition _get_str (s : string) (end_ : nat) : res (string * nat) :=
  _get_str_loop (S (String.length s)) s end_ [].

Definition _get_value (s : string) (idx : nat) : res (pyval * nat) :=
  match String.get idx s with
  | None => Raise SyntaxError
  | Some nextchar =>
      if Ascii.eqb nextchar "'" then
        '(value, end_) ← _get_str s (S idx); Ok (PStr value, end_)
      else if Ascii.eqb nextchar "n" && String.eqb (slice_str s idx 4) "null"
      then Ok (PNone, (idx + 4)%nat)
      else if Ascii.eqb nextchar "t" && String.eqb (slice_str s idx 4) "true"
      then Ok (PBool true, (idx + 4)%nat)
      else if Ascii.eqb nextchar "f" && String.eqb (slice_str s idx 5) "false"
      then Ok (PBool false, (idx + 5)%nat)
      else
        match _match_number s idx with
        | Some (integer, frac, exp, end_) =>
            if bool_decide (is_Some frac) || bool_decide (is_Some exp) then
              let value := float_of_literal integer frac exp in
              if isinf value then Raise SyntaxError
              else Ok (PFloat value, end_)
            else Ok (PInt (int_of_str integer), end_)
        | None =>
            if Ascii.eqb nextchar "I"
               && String.eqb (slice_str s idx 8) "Infinity"
            then Ok (PFloat (S754_infinity false), (idx + 8)%nat)
            else if Ascii.eqb nextchar "-"
                    && String.eqb (slice_str s idx 9) "-Infinity"
            then Ok (PFloat (S754_infinity true), (idx + 9)%nat)
            else Raise SyntaxError
        end
  end.

(** ** Container primitives *)

Definition deref (h : heap) (a : addr) : res pyobj :=
  match h !! a with
  | Some o => Ok o
  | None => Stuck
  end.

Definition is_container (v : pyval) : bool :=
  match v with
  | PRef _ => true
  | _ => false
  end.

Fixpoint dict_get (d : list (string * pyval)) (k : string) : option pyval :=
  match d with
  | [] => None
  | (k', v) :: d' => if String.eqb k' k then Some v else dict_get d' k
  end.

(** [d[k] = v]: an existing key keeps its position, a new one goes last. *)
Fixpoint dict_set (d : list (string * pyval)) (k : string) (v : pyval)
  : list (string * pyval) :=
  match d with
  | [] => [(k, v)]
  | (k', v') :: d' =>
      if String.eqb k' k then (k', v) :: d' else (k', v') :: dict_set d' k v
  end.

Fixpoint dict_del (d : list (string * pyval)) (k : string)
  : list (string * pyval) :=
  match d with
  | [] => []
  | (k', v') :: d' =>
      if String.eqb k' k then d' else (k', v') :: dict_del d' k
  end.

Definition dict_keys (d : list (string * pyval)) : list string := d.*1.

(** A list index: negative indices count from the end. *)
Definition norm_index (len i : Z) : option nat :=
  let j := if i <? 0 then i + len else i in
  if (0 <=? j) && (j <? len) then Some (Z.to_nat j) else None.

(** The positions a slice selects in a list of length [len], in the
    order of the range that [slice.indices(len)] describes; a zero step
    is a [ValueError].  Lengths are below [maxsize], so the clamping of
    huge bounds to [maxsize] that CPython performs first does not change
    the result. *)
Definition slice_indices (len start stop : Z) (step : option Z)
  : res (list nat) :=
  let step := default 1 step in
  if step =? 0 then Raise ValueError
  else
    let adjust i :=
      if i <? 0 then
        (if i + len <? 0 then (if step <? 0 then -1 else 0) else i + len)
      else if len <=? i then (if step <? 0 then len - 1 else len)
      else i in
    let start := adjust start in
    let stop := adjust stop in
    let n :=
      if step <? 0 then
        (if stop <? start then (start - stop - 1) / (- step) + 1 else 0)
      else
        (if start <? stop then (stop - start - 1) / step + 1 else 0) in
    Ok (map (fun i => Z.to_nat (start + Z.of_nat i * step))
          (seq 0 (Z.to_nat n))).

Definition list_len (l : list pyval) : Z := Z.of_nat (length l).

(** [target[key]] for a key that is not a slice. *)
Definition getitem (h : heap) (target : addr) (k : key) : res pyval :=
  o ← deref h target;
  match o, k with
  | PList l, KInt i =>
      match norm_index (list_len l) i with
      | Some j => from_option Ok (Raise IndexError) (l !! j)
      | None => Raise IndexError
      end
  | PList _, KStr _ => Raise TypeError
  | PDict d, KStr s => from_option Ok (Raise KeyError) (dict_get d s)
  | PDict _, KInt _ => Raise KeyError
  | _, KSlice _ _ _ => Raise TypeError
  end.

(** [target[key]] for a slice: a new list of the selected items. *)
Definition getslice (h : heap) (target : addr) (start stop : Z)
    (step : option Z) : res (list pyval) :=
  o ← deref h target;
  match o with
  | PList l =>
      idxs ← slice_indices (list_len l) start stop step;
      Ok (omap (M:=list) (fun j : nat => l !! j) idxs)
  | PDict _ => Raise KeyError
  end.

(** [key in target] for a dict, [-len(target) <= key < len(target)]
    otherwise. *)
Definition has_key (h : heap) (target : addr) (k : key) : res bool :=
  o ← deref h target;
  match o, k with
  | PDict d, KStr s => Ok (bool_decide (is_Some (dict_get d s)))
  | PDict _, KInt _ => Ok false
  | PDict _, KSlice _ _ _ => Raise TypeError
  | PList l, KInt i => Ok ((- list_len l <=? i) && (i <? list_len l))
  | PList _, _ => Raise TypeError
  end.

(** What [iter(value)] yields when [value] is consumed at once. *)
Definition iter_value (h : heap) (v : pyval) : res (list pyval) :=
  match v with
  | PRef a =>
      o ← deref h a;
      match o with
      | PList l => Ok l
      | PDict d => Ok (PStr <$> dict_keys d)
      end
  | PStr s => Ok ((fun c => PStr (String c "")) <$> list_ascii_of_string s)
  | _ => Raise TypeError
  end.

Definition remove_at {A} (j : nat) (l : list A) : list A :=
  take j l ++ drop (S j) l.

(** The items of [l] whose position, counted from [k], is not in
    [idxs]. *)
Fixpoint remove_positions_from {A} (k : nat) (idxs : list nat) (l : list A)
  : list A :=
  match l with
  | [] => []
  | x :: l' =>
      if bool_decide (k ∈ idxs) then remove_positions_from (S k) idxs l'
      else x :: remove_positions_from (S k) idxs l'
  end.

Definition remove_positions {A} (idxs : list nat) (l : list A) : list A :=
  remove_positions_from 0 idxs l.

(** [del target[key]] *)
Definition delitem (h : heap) (target : addr) (k : key) : res heap :=
  o ← deref h target;
  match o, k with
  | PList l, KInt i =>
      match norm_index (list_len l) i with
      | Some j => Ok (<[target := PList (remove_at j l)]> h)
      | None => Raise IndexError
      end
  | PList l, KSlice start stop step =>
      idxs ← slice_indices (list_len l) start stop step;
      Ok (<[target := PList (remove_positions idxs l)]> h)
  | PList _, KStr _ => Raise TypeError
  | PDict d, KStr s =>
      match dict_get d s with
      | Some _ => Ok (<[target := PDict (dict_del d s)]> h)
      | None => Raise KeyError
      end
  | PDict _, KInt _ => Raise KeyError
  | PDict _, KSlice _ _ _ => Raise TypeError
  end.

(** Assignment to an extended slice: item [i] of [vs] goes to position
    [idxs[i]]. *)
Fixpoint assign_positions (idxs : list nat) (vs : list pyval)
    (l : list pyval) : list pyval :=
  match idxs, vs with
  | j :: idxs', v :: vs' => assign_positions idxs' vs' (<[j := v]> l)
  | _, _ => l
  end.

(** [target[key] = value] *)
Definition setitem (h : heap) (target : addr) (k : key) (value : pyval)
  : res heap :=
  o ← deref h target;
  match o, k with
  | PList l, KInt i =>
      match norm_index (list_len l) i with
      | Some j => Ok (<[target := PList (<[j := value]> l)]> h)
      | None => Raise IndexError
      end
  | PList l, KSlice start stop step =>
      idxs ← slice_indices (list_len l) start stop step;
      vs ← iter_value h value;
      if default 1 step =? 1 then
        let lo := Z.to_nat (if start <? 0
                            then Z.max 0 (start + list_len l)
                            else Z.min start (list_len l)) in
        Ok (<[target := PList (take lo l ++ vs ++ drop (lo + length idxs) l)]> h)
      else if bool_decide (length vs = length idxs) then
        Ok (<[target := PList (assign_positions idxs vs l)]> h)
      else Raise ValueError
  | PList _, KStr _ => Raise TypeError
  | PDict d, KStr s => Ok (<[target := PDict (dict_set d s value)]> h)
  | PDict _, _ => Stuck
  end.

(** [list.insert(target, key, value)]: the receiver must be a list, the
    index must fit a machine word, and it is clamped to the list. *)
Definition pylist_insert (h : heap) (target : addr) (k : key) (value : pyval)
  : res heap :=
  o ← deref h target;
  match o, k with
  | PList l, KInt i =>
      if (i <? - maxsize - 1) || (maxsize <? i) then Raise OverflowError
      else
        let len := list_len l in
        let j := if i <? 0 then Z.max 0 (i + len) else Z.min i len in
        Ok (<[target := PList (take (Z.to_nat j) l ++ value :: drop (Z.to_nat j) l)]> h)
  | _, _ => Raise TypeError
  end.

(** The list that a value refers to, as the unbound methods of [list]
    demand of their receiver. *)
Definition as_list (h : heap) (v : pyval) : res (addr * list pyval) :=
  match v with
  | PRef a =>
      o ← deref h a;
      match o with
      | PList l => Ok (a, l)
      | PDict _ => Raise TypeError
      end
  | _ => Raise TypeError
  end.

Definition as_dict (h : heap) (v : pyval)
  : res (addr * list (string * pyval)) :=
  match v with
  | PRef a =>
      o ← deref h a;
      match o with
      | PDict d => Ok (a, d)
      | PList _ => Raise TypeError
      end
  | _ => Raise TypeError
  end.

(** ** Rich comparison of values *)

(** The exact order of an integer and a float, as Python compares them;
    [None] when the float is a NaN. *)
Definition compare_int_float (n : Z) (f : spec_float) : option comparison :=
  match f with
  | S754_nan => None
  | S754_infinity s => Some (if s then Gt else Lt)
  | S754_zero _ => Some (n ?= 0)
  | S754_finite s m e =>
      let x := if s then Zneg m else Zpos m in
      Some (if 0 <=? e then n ?= x * 2 ^ e else n * 2 ^ (- e) ?= x)
  end.

(** [bool] is a subclass of [int]: the three numeric types compare by
    value. *)
Definition num_of (v : pyval) : option (Z + spec_float) :=
  match v with
  | PBool b => Some (inl (if b then 1 else 0))
  | PInt n => Some (inl n)
  | PFloat f => Some (inr f)
  | _ => None
  end.

Definition compare_num (a b : Z + spec_float) : option comparison :=
  match a, b with
  | inl n, inl m => Some (n ?= m)
  | inl n, inr f => compare_int_float n f
  | inr f, inl n => CompOpp <$> compare_int_float n f
  | inr f, inr g => SFcompare f g
  end.

(** What an operator answers on an ordered pair; a NaN is unordered and
    only [!=] holds of it. *)
Definition holds (op : operator.t) (c : option comparison) : bool :=
  match op, c with
  | operator.lt, Some Lt => true
  | operator.le, Some (Lt | Eq) => true
  | operator.eq, Some Eq => true
  | operator.ne, Some Eq => false
  | operator.ne, _ => true
  | operator.ge, Some (Gt | Eq) => true
  | operator.gt, Some Gt => true
  | _, _ => false
  end.

(** Operands of unrelated types: [==] is false, [!=] is true and an
    ordering is a [TypeError]. *)
Definition unrelated (op : operator.t) : res bool :=
  match op with
  | operator.eq => Ok false
  | operator.ne => Ok true
  | _ => Raise TypeError
  end.

Definition same_object (v w : pyval) : bool :=
  match v, w with
  | PRef a, PRef b => bool_decide (a = b)
  | _, _ => false
  end.

(** [operator(v, w)] as a truth value.  Containers compare by content:
    lists item by item up to the first difference, dicts by their key
    sets and values whatever the order.  The fuel bounds the depth of
    nesting. *)
Fixpoint richcmp (fuel : nat) (h : heap) (op : operator.t) (v w : pyval)
  : res bool :=
  match fuel with
  | O => Stuck
  | S fuel' =>
      let item_eq x y :=
        if same_object x y then Ok true
        else richcmp fuel' h operator.eq x y in
      match num_of v, num_of w with
      | Some a, Some b => Ok (holds op (compare_num a b))
      | _, _ =>
          match v, w with
          | PNone, PNone =>
              match op with
              | operator.eq => Ok true
              | operator.ne => Ok false
              | _ => Raise TypeError
              end
          | PStr a, PStr b => Ok (holds op (Some (String.compare a b)))
          | PRef a, PRef b =>
              oa ← deref h a; ob ← deref h b;
              match oa, ob with
              | PList l1, PList l2 =>
                  let differ_len := negb (bool_decide (length l1 = length l2)) in
                  match op with
                  | operator.eq => if differ_len then Ok false else
                      (fix go l1 l2 :=
                         match l1, l2 with
                         | x :: l1', y :: l2' =>
                             e ← item_eq x y;
                             if e : bool then go l1' l2' else Ok false
                         | _, _ => Ok true
                         end) l1 l2
                  | operator.ne => if differ_len then Ok true else
                      (fix go l1 l2 :=
                         match l1, l2 with
                         | x :: l1', y :: l2' =>
                             e ← item_eq x y;
                             if e : bool then go l1' l2' else Ok true
                         | _, _ => Ok false
                         end) l1 l2
                  | _ =>
                      (fix go l1 l2 :=
                         match l1, l2 with
                         | x :: l1', y :: l2' =>
                             e ← item_eq x y;
                             if e : bool then go l1' l2'
                             else richcmp fuel' h op x y
                         | _, _ =>
                             Ok (holds op
                                   (Some (Z.of_nat (length l1)
                                          ?= Z.of_nat (length l2))))
                         end) l1 l2
                  end
              | PDict d1, PDict d2 =>
                  let equal :=
                    if negb (bool_decide (length d1 = length d2)) then Ok false
                    else
                      (fix go d :=
                         match d with
                         | (k, x) :: d' =>
                             match dict_get d2 k with
                             | Some y =>
                                 e ← item_eq x y;
                                 if e : bool then go d' else Ok false
                             | None => Ok false
                             end
                         | [] => Ok true
                         end) d1 in
                  match op with
                  | operator.eq => equal
                  | operator.ne => negb <$> equal
                  | _ => Raise TypeError
                  end
              | _, _ => unrelated op
              end
          | _, _ => unrelated op
          end
      end
  end.

(** [operator(v, w)] in a heap; nesting is no deeper than the number of
    objects unless the structure is cyclic. *)
Definition compare_values (h : heap) (op : operator.t) (v w : pyval)
  : res bool :=
  richcmp (S (length h)) h op v w.

(** ** The traverser and the filter evaluator *)

Definition is_str (k : key) : bool :=
  match k with
  | KStr _ => true
  | _ => false
  end.

Definition is_int (k : key) : bool :=
  match k with
  | KInt _ => true
  | _ => false
  end.

Definition _check_key (h : heap) (target : addr) (k : key)
    (allow_slice : bool) : res unit :=
  o ← deref h target;
  match o with
  | PDict _ => if negb (is_str k) then Raise TypeError else Ok ()
  | PList _ =>
      if allow_slice && is_str k then Raise TypeError
      else if negb allow_slice && negb (is_int k) then Raise TypeError
      else Ok ()
  end.

Definition _get_targets (h : heap) (n : node) : res (list addr) :=
  let '(target, k) := n in
  _ ← _check_key h target k true;
  targets ←
    match k with
    | KSlice start stop step => getslice h target start stop step
    | _ => v ← getitem h target k; Ok [v]
    end;
  if negb (forallb is_container targets) then Raise TypeError
  else Ok (omap (M:=list)
             (fun v => match v with PRef a => Some a | _ => None end)
             targets).

(** [[(target, key) for node in nodes for target in _get_targets(node)]] *)
Definition step_nodes (h : heap) (nodes : list node) (k : key)
  : res (list node) :=
  targets ← rmapM (_get_targets h) nodes;
  Ok ((fun target => (target, k)) <$> concat targets).

(** The keys of a container: [target.keys()] or [range(len(target))]. *)
Definition keys_of (h : heap) (target : addr) : res (list key) :=
  o ← deref h target;
  match o with
  | PDict d => Ok (KStr <$> dict_keys d)
  | PList l => Ok ((fun i => KInt (Z.of_nat i)) <$> seq 0 (length l))
  end.

(** The wildcard: one node per key of every target. *)
Definition wildcard_nodes (h : heap) (target : addr) : res (list node) :=
  ks ← keys_of h target;
  Ok (map (fun k : key => (target, k)) ks).

Definition expand_nodes (h : heap) (nodes : list node) : res (list node) :=
  targets ← rmapM (_get_targets h) nodes;
  per_target ← rmapM (wildcard_nodes h) (concat targets);
  Ok (concat per_target).

(** A list comprehension with a condition that may raise. *)
Fixpoint rfilterM {A} (p : A -> res bool) (l : list A) : res (list A) :=
  match l with
  | [] => Ok []
  | x :: l' =>
      b ← p x;
      if b : bool then (ys ← rfilterM p l'; Ok (x :: ys)) else rfilterM p l'
  end.

(** The pairs [(node, target[key])] of the nodes whose presence test
    differs from [negate_filter]. *)
Fixpoint present_pairs (h : heap) (negate_filter : bool)
    (zipped : list (node * node)) : res (list (node * pyval)) :=
  match zipped with
  | [] => Ok []
  | (n, (target, k)) :: zipped' =>
      present ← has_key h target k;
      if negb (Bool.eqb present negate_filter) then
        v ← getitem h target k;
        ps ← present_pairs h negate_filter zipped';
        Ok ((n, v) :: ps)
      else present_pairs h negate_filter zipped'
  end.

(** The key of a bracket group that starts with an index: the index
    itself, or, behind a colon, the slice with its stop and optional
    step. *)
Definition bracket_key (s : string) (m : string * nat) (single : bool)
  : res (key * nat) :=
  let '(idx, e1) := _get_idx m in
  if negb (String.eqb (slice_str s e1 1) ":") then Ok (KInt idx, e1)
  else if single then Raise SyntaxError
  else
    match _match_idx s (S e1) with
    | Some m2 =>
        let '(idx2, e2) := _get_idx m2 in
        if negb (String.eqb (slice_str s e2 1) ":") then
          Ok (KSlice idx idx2 None, e2)
        else
          match _match_int s (S e2) with
          | Some (g, e3) => Ok (KSlice idx idx2 (Some (int_of_str g)), e3)
          | None => Raise SyntaxError
          end
    | None => Raise SyntaxError
    end.

Fixpoint _traverse (fuel : nat) (h : heap) (nodes : list node) (s : string)
    (end_ : nat) (allow_slice single : bool) {struct fuel}
  : res (list node * nat) :=
  match fuel with
  | O => Stuck
  | S fuel' =>
      let terminator := slice_str s end_ 1 in
      if String.eqb terminator "." then
        '(k, end1) ← _get_key s (S end_);
        nodes1 ← step_nodes h nodes (KStr k);
        _traverse fuel' h nodes1 s end1 allow_slice single
      else if String.eqb terminator "[" then
        '(nodes1, end1) ←
          match _match_idx s (S end_) with
          | Some m =>
              '(k, e2) ← bracket_key s m single;
              nodes1 ← step_nodes h nodes k;
              Ok (nodes1, e2)
          | None =>
              if single then Raise SyntaxError
              else
                nodes1 ← expand_nodes h nodes;
                _filter_nodes fuel' h nodes1 s (S end_)
          end;
        match String.get end1 s with
        | None => Raise SyntaxError
        | Some t =>
            if negb (Ascii.eqb t "]") then Raise SyntaxError
            else _traverse fuel' h nodes1 s (S end1) allow_slice single
        end
      else
        _ ← rmapM (fun n : node => _check_key h n.1 n.2 allow_slice) nodes;
        Ok (nodes, end_)
  end
with _filter_nodes (fuel : nat) (h : heap) (nodes : list node) (s : string)
    (end_ : nat) {struct fuel} : res (list node * nat) :=
  match fuel with
  | O => Stuck
  | S fuel' =>
      let negate_filter := String.eqb (slice_str s end_ 1) "!" in
      let end0 := if negate_filter then S end_ else end_ in
      '(k, end1) ← _get_key s end0;
      if negb (String.eqb k "@") then Raise SyntaxError
      else
        '(filter_nodes, end2) ← _traverse fuel' h nodes s end1 false true;
        pairs ← present_pairs h negate_filter (zip nodes filter_nodes);
        let '(op, end3) := _get_operator s end2 in
        '(nodes1, end4) ←
          match op with
          | None => Ok (pairs.*1, end3)
          | Some op =>
              if negate_filter then Raise SyntaxError
              else if negb (String.eqb (slice_str s end3 1) "@") then
                '(value, e4) ← _get_value s end3;
                kept ← rfilterM (fun p : node * pyval =>
                                   compare_values h op p.2 value) pairs;
                Ok (kept.*1, e4)
              else
                '(k2, e4) ← _get_key s end3;
                if negb (String.eqb k2 "@") then Raise SyntaxError
                else
                  '(filter2_nodes, e5) ←
                    _traverse fuel' h nodes s e4 false true;
                  kept ← rfilterM
                           (fun q : (node * pyval) * node =>
                              present ← has_key h q.2.1 q.2.2;
                              if present : bool then
                                v2 ← getitem h q.2.1 q.2.2;
                                compare_values h op q.1.2 v2
                              else Ok false)
                           (zip pairs filter2_nodes);
                  Ok (kept.*1.*1, e5)
          end;
        if negb (String.eqb (slice_str s end4 2) "&&") then Ok (nodes1, end4)
        else _filter_nodes fuel' h nodes1 s (end4 + 2)%nat
  end.

Definition query_fuel (s : string) : nat := S (String.length s).

Definition _traverser (h : heap) (nodes : list node) (s : string)
    (allow_slice : bool) : res (list node) :=
  '(k, end_) ← _get_key s 0;
  if negb (String.eqb k "$") then Raise SyntaxError
  else
    '(nodes1, end1) ←
      _traverse (query_fuel s) h nodes s end_ allow_slice false;
    if (end1 <? String.length s)%nat then Raise SyntaxError else Ok nodes1.

(** ** The patch executor *)

(** An operation record; [value] and [expr] are read only by the
    operations that need them, and reading a missing one is a
    [KeyError]. *)
Record operation : Type := Operation {
  op : string;
  path : string;
  value : option pyval;
  expr : option string;
}.

(** A statement runs in a heap and leaves a heap, also when it raises:
    what was written before the exception stays written. *)
Definition outcome : Type := res () * heap.

Definition lift (h : heap) (r : res heap) : outcome :=
  match r with
  | Ok h' => (Ok (), h')
  | Raise e => (Raise e, h)
  | Stuck => (Stuck, h)
  end.

(** A [for] loop whose body may raise. *)
Fixpoint for_each {A} (body : heap -> A -> outcome) (h : heap) (l : list A)
  : outcome :=
  match l with
  | [] => (Ok (), h)
  | x :: l' =>
      match body h x with
      | (Ok _, h') => for_each body h' l'
      | (r, h') => (r, h')
      end
  end.

(** [for target, key in <nodes>: <body>], the node list being computed
    before the first iteration. *)
Definition for_nodes (h : heap) (nodes : res (list node))
    (body : heap -> node -> res heap) : outcome :=
  match nodes with
  | Ok ns => for_each (fun h n => lift h (body h n)) h ns
  | Raise e => (Raise e, h)
  | Stuck => (Stuck, h)
  end.

(** [new_nodes != filtered_nodes] is settled by [==] on lists of tuples:
    same length, targets the same object or equal by content, keys
    equal. *)
Fixpoint nodes_eq (h : heap) (ns1 ns2 : list node) : res bool :=
  match ns1, ns2 with
  | [], [] => Ok true
  | (t1, k1) :: ns1', (t2, k2) :: ns2' =>
      if negb (bool_decide (length ns1' = length ns2')) then Ok false
      else
        e ← (if bool_decide (t1 = t2) then Ok true
             else compare_values h operator.eq (PRef t1) (PRef t2));
        if (e : bool) && bool_decide (k1 = k2) then nodes_eq h ns1' ns2'
        else Ok false
  | _, _ => Ok false
  end.

(** [dict.update(d, pairs)] for a sequence of pairs: the pairs before a
    malformed one are merged. *)
Fixpoint update_from_pairs (h : heap) (a : addr) (pairs : list pyval)
  : outcome :=
  match pairs with
  | [] => (Ok (), h)
  | p :: pairs' =>
      match iter_value h p with
      | Ok [PStr k; v] =>
          match as_dict h (PRef a) with
          | Ok (_, d) =>
              update_from_pairs (<[a := PDict (dict_set d k v)]> h) a pairs'
          | Raise e => (Raise e, h)
          | Stuck => (Stuck, h)
          end
      | Ok [PRef _; _] => (Raise TypeError, h)
      | Ok [_; _] => (Stuck, h)
      | Ok _ => (Raise ValueError, h)
      | Raise e => (Raise e, h)
      | Stuck => (Stuck, h)
      end
  end.

(** [dict.update(x, value)] *)
Definition dict_update (h : heap) (x value : pyval) : outcome :=
  match as_dict h x with
  | Ok (a, d) =>
      match value with
      | PRef b =>
          match deref h b with
          | Ok (PDict d2) =>
              (Ok (),
               <[a := PDict (foldl (fun d kv => dict_set d kv.1 kv.2) d d2)]> h)
          | Ok (PList l) => update_from_pairs h a l
          | Raise e => (Raise e, h)
          | Stuck => (Stuck, h)
          end
      | PStr EmptyString => (Ok (), h)
      | PStr _ => (Raise ValueError, h)
      | _ => (Raise TypeError, h)
      end
  | Raise e => (Raise e, h)
  | Stuck => (Stuck, h)
  end.

Definition read_field {A} (h : heap) (field : option A)
    (k : A -> outcome) : outcome :=
  match field with
  | Some x => k x
  | None => (Raise KeyError, h)
  end.

(** One iteration of the loop over the operations. *)
Definition patch_operation (root : addr) (nodes : list node) (h : heap)
    (operation : operation) : outcome :=
  let op := operation.(op) in
  let path := operation.(path) in
  if String.eqb op "append" then
    read_field h operation.(value) (fun value =>
      for_nodes h (_traverser h nodes path false) (fun h '(target, key) =>
        x ← getitem h target key;
        '(a, l) ← as_list h x;
        Ok (<[a := PList (l ++ [value])]> h)))
  else if String.eqb op "assert" then
    read_field h operation.(expr) (fun expr =>
      lift h (
        new_nodes ← _traverser h nodes path false;
        '(filtered_nodes, end_) ← _filter_nodes (query_fuel expr) h nodes expr 0;
        if (end_ <? String.length expr)%nat then Raise SyntaxError
        else
          same ← nodes_eq h new_nodes filtered_nodes;
          if negb same then Raise ValueError else Ok h))
  else if String.eqb op "clear" then
    for_nodes h (_traverser h nodes path false) (fun h '(target, key) =>
      new_target ← getitem h target key;
      match new_target with
      | PRef a =>
          o ← deref h a;
          Ok (<[a := match o with
                     | PList _ => PList []
                     | PDict _ => PDict []
                     end]> h)
      | _ => Raise TypeError
      end)
  else if String.eqb op "del" then
    for_nodes h (@rev node <$> _traverser h nodes path true) (fun h '(target, key) =>
      if bool_decide (target = root) then Raise ValueError
      else delitem h target key)
  else if String.eqb op "extend" then
    read_field h operation.(value) (fun value =>
      for_nodes h (_traverser h nodes path false) (fun h '(target, key) =>
        x ← getitem h target key;
        '(a, l) ← as_list h x;
        vs ← iter_value h value;
        Ok (<[a := PList (l ++ vs)]> h)))
  else if String.eqb op "insert" then
    read_field h operation.(value) (fun value =>
      for_nodes h (@rev node <$> _traverser h nodes path false)
        (fun h '(target, key) =>
           if bool_decide (target = root) then Raise ValueError
           else pylist_insert h target key value))
  else if String.eqb op "reverse" then
    for_nodes h (_traverser h nodes path false) (fun h '(target, key) =>
      x ← getitem h target key;
      '(a, l) ← as_list h x;
      Ok (<[a := PList (rev l)]> h))
  else if String.eqb op "set" then
    read_field h operation.(value) (fun value =>
      for_nodes h (_traverser h nodes path true) (fun h '(target, key) =>
        setitem h target key value))
  else if String.eqb op "update" then
    read_field h operation.(value) (fun value =>
      match _traverser h nodes path false with
      | Ok ns =>
          for_each (fun h '(target, key) =>
                      match getitem h target key with
                      | Ok x => dict_update h x value
                      | Raise e => (Raise e, h)
                      | Stuck => (Stuck, h)
                      end) h ns
      | Raise e => (Raise e, h)
      | Stuck => (Stuck, h)
      end)
  else (Raise ValueError, h).

(** [patch(obj, operations)]: the root wrapper [[obj]] is a new list; the
    result is [root[0]] and the heap the operations left. *)
Definition patch (h : heap) (obj : pyval)
    (operations : operation + list operation) : res pyval * heap :=
  let root := length h in
  let h0 := h ++ [PList [obj]] in
  let nodes : list node := [(root, KInt 0)] in
  let operations :=
    match operations with
    | inl o => [o]
    | inr l => l
    end in
  match for_each (patch_operation root nodes) h0 operations with
  | (Ok _, h') => (getitem h' root (KInt 0), h')
  | (Raise e, h') => (Raise e, h')
  | (Stuck, h') => (Stuck, h')
  end.

(** ** Reference definitions for the statements *)

(** The nodes [(a, i)] of one list [a], for the positions [idxs]. *)
Definition index_nodes (a : addr) (idxs : list nat) : list node :=
  (fun i => (a, KInt (Z.of_nat i))) <$> idxs.



Definition is_slice (k : key) : bool :=
  match k with
  | KSlice _ _ _ => true
  | _ => false
  end.

(** The kind invariant of a node: a string key on a dict; on a list an
    integer key, or a slice when slices are allowed. *)
Definition kind_ok (h : heap) (allow_slice : bool) (n : node) : bool :=
  match h !! n.1 with
  | Some (PDict _) => is_str n.2
  | Some (PList _) => is_int n.2 || (allow_slice && is_slice n.2)
  | None => false
  end.

Fixpoint str_forallb (p : ascii -> bool) (s : string) : bool :=
  match s with
  | EmptyString => true
  | String c s' => p c && str_forallb p s'
  end.

(** A character that a string chunk may hold: neither quote nor tilde. *)
Definition str_plain (c : ascii) : bool := negb (char_in c ["'";"~"]%char).

(** The [assert] operation as the specification words it: the filter
    runs over the node set that the path resolved to. *)
Definition assert_as_specified (h : heap) (nodes : list node)
    (path expr : string) : res () :=
  new_nodes ← _traverser h nodes path false;
  '(filtered_nodes, end_) ←
    _filter_nodes (query_fuel expr) h new_nodes expr 0;
  if (end_ <? String.length expr)%nat then Raise SyntaxError
  else
    same ← nodes_eq h new_nodes filtered_nodes;
    if negb same then Raise ValueError else Ok ().

(** The documents of the examples: the heap holds the document at
    address 0 and [patch] puts the root wrapper at address 1. *)
Definition doc_10_20_30 : heap := [PList [PInt 10; PInt 20; PInt 30]].
Definition doc_zero : heap := [PList [PInt 0]].
Definition node_zero : list node := [(0%nat, KInt 0)].

(** A filter query run on the node [([0], 0)] through the executor: on
    the document [0] the root wrapper is the list [[0]], so [assert] on
    the path [$] succeeds when the filter keeps the node, raises
    [ValueError] when it discards it, and raises [SyntaxError] when the
    query is malformed or not read to its end. *)
Definition assert_on_zero (query : string) : res pyval * heap :=
  patch [] (PInt 0) (inl (Operation "assert" "$" None (Some query))).

(** ** Reference definitions for the further properties *)

(** A character that a key chunk may hold. *)
Definition key_plain (c : ascii) : bool := negb (char_in c key_ctrl).

(** A key as a query writes it: a tilde in front of every control
    character. *)
Fixpoint escape_key (k : string) : string :=
  match k with
  | EmptyString => EmptyString
  | String c k' =>
      if key_plain c then String c (escape_key k')
      else String "~" (String c (escape_key k'))
  end.

(** The body of a quoted string as a query writes it: a tilde in front of
    every quote and every tilde. *)
Fixpoint escape_str (t : string) : string :=
  match t with
  | EmptyString => EmptyString
  | String c t' =>
      if str_plain c then String c (escape_str t')
      else String "~" (String c (escape_str t'))
  end.

(** What may follow a key: the end of the query or a control character
    other than the tilde. *)
Definition ends_key (rest : string) : bool :=
  match rest with
  | EmptyString => true
  | String c _ => char_in c key_ctrl && negb (Ascii.eqb c "~")
  end.

(** A tilde that escapes nothing: at the end of the query, or in front
    of a character that is no control character. *)
Definition bad_key_escape (rest : string) : bool :=
  match rest with
  | String "~" EmptyString => true
  | String "~" (String c _) => negb (char_in c key_escapes)
  | _ => false
  end.

(** The decimal numeral of an integer, as the standard library prints
    it: a minus sign for a negative number, no leading zero. *)
Definition show_int (z : Z) : string :=
  DecimalString.NilZero.string_of_int (Z.to_int z).






(** * Properties *)

(** ** The result monad *)

Lemma bind_Ok {A B} (r : res A) (k : A -> res B) (b : B) :
  (r ≫= k) = Ok b -> exists a, r = Ok a /\ k a = Ok b.
Proof. destruct r; simpl; [eauto|done..]. Qed.

Lemma for_each_app {A} (body : heap -> A -> outcome) h l1 l2 :
  for_each body h (l1 ++ l2) =
  match for_each body h l1 with
  | (Ok _, h1) => for_each body h1 l2
  | (r, h1) => (r, h1)
  end.
Proof.
  revert h. induction l1 as [|x l1 IH]; intros h; simpl; [done|].
  destruct (body h x) as [[[]| |] h']; auto.
Qed.

(** ** Positions in a list *)

Section positions.
Context {A : Type}.
Implicit Types (l : list A) (idxs : list nat) (k m : nat).

Lemma remove_positions_from_app k idxs l1 l2 :
  remove_positions_from k idxs (l1 ++ l2)
  = remove_positions_from k idxs l1
    ++ remove_positions_from (k + length l1) idxs l2.
Proof.
  revert k. induction l1 as [|x l1 IH]; intros k; simpl.
  - by rewrite Nat.add_0_r.
  - rewrite IH, Nat.add_succ_r. by case_bool_decide.
Qed.

Lemma remove_positions_from_below k idxs l :
  Forall (fun i => (i < k)%nat) idxs -> remove_positions_from k idxs l = l.
Proof.
  revert k. induction l as [|x l IH]; intros k Hlt; simpl; [done|].
  rewrite bool_decide_false.
  - f_equal. apply IH. eapply Forall_impl; [done|]. simpl. lia.
  - intros Hin. rewrite Forall_forall in Hlt. apply Hlt in Hin. lia.
Qed.

Lemma elem_of_snoc_below k idxs m :
  (k < m)%nat -> k ∈ idxs ++ [m] <-> k ∈ idxs.
Proof.
  intros Hk. rewrite elem_of_app, list_elem_of_singleton.
  split; [|by left]. intros [|]; [done|lia].
Qed.

Lemma remove_positions_from_snoc k idxs m l :
  (k + length l <= m)%nat ->
  remove_positions_from k (idxs ++ [m]) l = remove_positions_from k idxs l.
Proof.
  revert k. induction l as [|x l IH]; intros k Hm; simpl in *; [done|].
  rewrite IH by lia.
  pose proof (elem_of_snoc_below k idxs m ltac:(lia)) as Hiff.
  destruct (decide (k ∈ idxs)).
  - rewrite !bool_decide_true; tauto.
  - rewrite !bool_decide_false; tauto.
Qed.

(** Removing the highest position first leaves the lower ones in
    place. *)
Lemma remove_positions_snoc idxs m l :
  Forall (fun i => (i < m)%nat) idxs -> (m < length l)%nat ->
  remove_positions idxs (remove_at m l) = remove_positions (idxs ++ [m]) l.
Proof.
  intros Hlt Hm. unfold remove_positions, remove_at.
  destruct (lookup_lt_is_Some_2 l m Hm) as [x Hx].
  rewrite <- (take_drop_middle l m x Hx) at 3.
  rewrite !remove_positions_from_app. simpl.
  rewrite length_take_le by lia.
  rewrite (remove_positions_from_snoc 0) by (rewrite length_take; lia).
  f_equal. rewrite bool_decide_true by (apply elem_of_app; right; by left).
  rewrite !remove_positions_from_below; [done| |done].
  apply Forall_app. split.
  - eapply Forall_impl; [done|]. simpl. lia.
  - repeat constructor.
Qed.




End positions.

(** ** The loops of [del] and [insert] *)

Lemma norm_index_nat (len i : nat) :
  (i < len)%nat -> norm_index (Z.of_nat len) (Z.of_nat i) = Some i.
Proof.
  intros Hi. unfold norm_index.
  destruct (Z.ltb_spec (Z.of_nat i) 0); [lia|].
  destruct (Z.leb_spec 0 (Z.of_nat i)); [|lia].
  destruct (Z.ltb_spec (Z.of_nat i) (Z.of_nat len)); [|lia].
  simpl. by rewrite Nat2Z.id.
Qed.

Lemma delitem_index (h : heap) (a : addr) (l : list pyval) (i : nat) :
  h !! a = Some (PList l) -> (i < length l)%nat ->
  delitem h a (KInt (Z.of_nat i)) = Ok (<[a := PList (remove_at i l)]> h).
Proof.
  intros Ha Hi. unfold delitem, deref. rewrite Ha. cbn [mbind res_bind].
  unfold list_len. by rewrite norm_index_nat.
Qed.


Lemma del_loop_ascending (root a : addr) (idxs : list nat) :
  a <> root ->
  forall (l : list pyval) (h : heap),
  StronglySorted lt idxs ->
  Forall (fun i => (i < length l)%nat) idxs ->
  h !! a = Some (PList l) ->
  for_each (fun h n => lift h (let '(target, key) := n in
              if bool_decide (target = root) then Raise ValueError
              else delitem h target key))
    h (rev (index_nodes a idxs))
  = (Ok (), <[a := PList (remove_positions idxs l)]> h).
Proof.
  intros Hne. induction idxs as [|m idxs IH] using rev_ind;
    intros l h Hsort Hlen Ha.
  - unfold remove_positions.
    rewrite remove_positions_from_below by constructor.
    by rewrite list_insert_id.
  - apply StronglySorted_app in Hsort as (Hlt & Hsort & _).
    apply Forall_app in Hlen as [Hlen Hm]. rewrite Forall_singleton in Hm.
    assert (Forall (fun i => (i < m)%nat) idxs) as Hbelow.
    { apply Forall_forall. intros i Hi. apply Hlt; [done|by left]. }
    unfold index_nodes. rewrite fmap_app, rev_app_distr.
    cbn [fmap list_fmap rev app for_each].
    rewrite bool_decide_false by done.
    rewrite (delitem_index h a l m) by done. cbn [lift].
    fold (index_nodes a idxs).
    rewrite (IH (remove_at m l)).
    + rewrite list_insert_insert_eq. by rewrite remove_positions_snoc.
    + done.
    + eapply Forall_impl; [exact Hbelow|]. simpl. intros i Hi.
      unfold remove_at. rewrite length_app, length_take, length_drop. lia.
    + apply list_lookup_insert_eq. by eapply lookup_lt_Some.
Qed.




(** ** The root wrapper *)

Lemma traverser_root (h : heap) (root : addr) (items : list pyval)
    (allow_slice : bool) :
  h !! root = Some (PList items) ->
  _traverser h [(root, KInt 0)] "$" allow_slice = Ok [(root, KInt 0)].
Proof.
  intros Hroot. unfold _traverser.
  change (_get_key "$" 0) with (@Ok (string * nat) ("$", 1%nat)).
  cbn. unfold _check_key, deref. rewrite Hroot. by destruct allow_slice.
Qed.

(** Whatever the wrapper holds at that moment of a batch, [del] and
    [insert] on [$] raise before they write. *)
Lemma root_operation_value_error
    (h : heap) (root : addr) (items : list pyval)
    (v0 : option pyval) (v : pyval) (e : option string) :
  h !! root = Some (PList items) ->
  patch_operation root [(root, KInt 0)] h (Operation "del" "$" v0 e)
    = (Raise ValueError, h)
  /\ patch_operation root [(root, KInt 0)] h
       (Operation "insert" "$" (Some v) e)
     = (Raise ValueError, h).
Proof.
  intros Hroot. unfold patch_operation.
  cbn [op path value expr String.eqb Ascii.eqb Bool.eqb read_field].
  rewrite !(traverser_root h root items) by done.
  cbn. rewrite bool_decide_true by done. done.
Qed.

(** C5. For every document, a [del] or an [insert] whose path is [$]
    raises [ValueError], alone or at the head of a list of operations,
    and the heap is the one the call started with plus the root
    wrapper: the document is not modified. *)
Theorem del_insert_root_value_error
    (h : heap) (obj : pyval) (v0 : option pyval) (v : pyval)
    (e : option string) (rest : list operation) :
  let del_root := Operation "del" "$" v0 e in
  let insert_root := Operation "insert" "$" (Some v) e in
  let unchanged := (Raise ValueError, h ++ [PList [obj]]) in
  patch h obj (inl del_root) = unchanged
  /\ patch h obj (inl insert_root) = unchanged
  /\ patch h obj (inr (del_root :: rest)) = unchanged
  /\ patch h obj (inr (insert_root :: rest)) = unchanged.
Proof.
  intros del_root insert_root unchanged.
  assert (Hroot : (h ++ [PList [obj]]) !! length h = Some (PList [obj]))
    by apply list_lookup_middle, eq_refl.
  destruct (root_operation_value_error _ _ _ v0 v e Hroot) as [Hdel Hins].
  fold del_root in Hdel. fold insert_root in Hins.
  unfold patch. cbn [for_each]. rewrite Hdel, Hins. done.
Qed.

(** ** Batches *)

Lemma patch_list_unfold (h : heap) (obj : pyval) (ops : list operation) :
  patch h obj (inr ops) =
  match for_each (patch_operation (length h) [(length h, KInt 0)])
          (h ++ [PList [obj]]) ops with
  | (Ok _, h') => (getitem h' (length h) (KInt 0), h')
  | (Raise e, h') => (Raise e, h')
  | (Stuck, h') => (Stuck, h')
  end.
Proof. reflexivity. Qed.

(** C9. No rollback: when the operations [before] succeed and leave the
    heap [h1], and the next operation raises [e] leaving [h2], the call
    reports the one error [e] and the heap it leaves is [h2], which is
    [h1] with whatever the failing operation wrote before it raised;
    the operations [after] are not run. *)
Theorem no_rollback
    (h : heap) (obj : pyval) (before : list operation) (failing : operation)
    (after : list operation) (h1 h2 : heap) (e : exn) :
  let root := length h in
  let nodes : list node := [(root, KInt 0)] in
  for_each (patch_operation root nodes) (h ++ [PList [obj]]) before
    = (Ok (), h1) ->
  patch_operation root nodes h1 failing = (Raise e, h2) ->
  patch h obj (inr (before ++ failing :: after)) = (Raise e, h2).
Proof.
  intros root nodes Hbefore Hfail. rewrite patch_list_unfold.
  subst root nodes. rewrite for_each_app, Hbefore. cbn [for_each].
  rewrite Hfail. done.
Qed.

Lemma no_rollback_witness :
  patch doc_10_20_30 (PRef 0%nat)
    (inr ([Operation "append" "$" (Some (PInt 4)) None]
          ++ Operation "del" "$[7]" None None
          :: [Operation "append" "$" (Some (PInt 5)) None]))
  = (Raise IndexError,
     [PList [PInt 10; PInt 20; PInt 30; PInt 4]; PList [PRef 0%nat]]).
Proof.
  apply (no_rollback doc_10_20_30 (PRef 0%nat)
           [Operation "append" "$" (Some (PInt 4)) None]
           (Operation "del" "$[7]" None None)
           [Operation "append" "$" (Some (PInt 5)) None]
           [PList [PInt 10; PInt 20; PInt 30; PInt 4]; PList [PRef 0%nat]]).
  - vm_compute. reflexivity.
  - vm_compute. reflexivity.
Defined.

(** Conversely, an error of the call is the error of one operation, the
    first that fails, run on the heap that the operations before it
    left. *)
Lemma failure_is_first_failure {A} (body : heap -> A -> outcome)
    (l : list A) : forall (h hf : heap) (e : exn),
  for_each body h l = (Raise e, hf) ->
  exists before failing after h1,
    l = before ++ failing :: after
    /\ for_each body h before = (Ok (), h1)
    /\ body h1 failing = (Raise e, hf).
Proof.
  induction l as [|x l IH]; intros h hf e H; [done|].
  cbn [for_each] in H. destruct (body h x) as [r h'] eqn:Hx.
  destruct r as [[]|e'|].
  - destruct (IH h' hf e H) as (before & failing & after & h1 & -> & Hb & Hf).
    exists (x :: before), failing, after, h1.
    cbn [for_each app]. rewrite Hx. done.
  - simplify_eq. by exists [], x, l, h.
  - done.
Qed.

(** A failure while the path is resolved writes nothing: the heap is the
    one the earlier operations left. *)
Lemma unresolved_path_writes_nothing
    (root : addr) (nodes : list node) (h : heap) (query : string)
    (v : option pyval) (ex : option string) (e : exn) :
  _traverser h nodes query true = Raise e ->
  patch_operation root nodes h (Operation "del" query v ex) = (Raise e, h).
Proof.
  intros Hfail. unfold patch_operation.
  cbn [op path value expr String.eqb Ascii.eqb Bool.eqb].
  by rewrite Hfail.
Qed.

(** ** The kind invariant *)

Lemma check_key_kind_ok h target k allow_slice :
  _check_key h target k allow_slice = Ok ()
  <-> kind_ok h allow_slice (target, k) = true.
Proof.
  unfold _check_key, kind_ok, deref. simpl.
  destruct (h !! target) as [[]|]; simpl; [| |done].
  - destruct allow_slice, k; simpl; split; done.
  - destruct k; simpl; split; done.
Qed.

Lemma check_key_outcome h target k allow_slice :
  is_Some (h !! target) ->
  _check_key h target k allow_slice =
    if kind_ok h allow_slice (target, k) then Ok () else Raise TypeError.
Proof.
  intros [o Ho]. unfold _check_key, kind_ok, deref. simpl. rewrite Ho. simpl.
  destruct o, allow_slice, k; done.
Qed.

Lemma check_nodes_kind_ok h allow_slice nodes us :
  rmapM (fun n : node => _check_key h n.1 n.2 allow_slice) nodes = Ok us ->
  Forall (fun n => kind_ok h allow_slice n = true) nodes.
Proof.
  revert us. induction nodes as [|[t k] nodes IH]; intros us H; [constructor|].
  simpl in H. apply bind_Ok in H as ([] & Hc & H).
  apply bind_Ok in H as (us' & Hrest & _).
  constructor; [by apply check_key_kind_ok|by eapply IH].
Qed.

Lemma check_nodes_violation h allow_slice nodes :
  Forall (fun n : node => is_Some (h !! n.1)) nodes ->
  Exists (fun n => kind_ok h allow_slice n = false) nodes ->
  rmapM (fun n : node => _check_key h n.1 n.2 allow_slice) nodes
  = Raise TypeError.
Proof.
  induction 1 as [|[t k] nodes Hn Hall IH]; intros Hex; [by inv Hex|].
  simpl. rewrite check_key_outcome by done.
  destruct (kind_ok h allow_slice (t, k)) eqn:Hk; [|done].
  inv Hex; [simpl in *; congruence|]. simpl. by rewrite IH.
Qed.

(** Every path through the loop of [_traverse] that returns goes through
    the final check. *)
Lemma traverse_kind_ok h s allow_slice single fuel :
  forall nodes end_ ns e,
  _traverse fuel h nodes s end_ allow_slice single = Ok (ns, e) ->
  Forall (fun n => kind_ok h allow_slice n = true) ns.
Proof.
  induction fuel as [|fuel IH]; intros nodes end_ ns e H; [done|].
  cbn [_traverse] in H.
  destruct (String.eqb (slice_str s end_ 1) ".").
  { apply bind_Ok in H as ([k e1] & _ & H).
    apply bind_Ok in H as (nodes1 & _ & H). by eapply IH. }
  destruct (String.eqb (slice_str s end_ 1) "[").
  { apply bind_Ok in H as ([nodes1 e1] & _ & H).
    destruct (String.get e1 s) as [t|]; [|done].
    destruct (negb (Ascii.eqb t "]")); [done|]. by eapply IH. }
  apply bind_Ok in H as (us & Hc & H). inv H.
  by eapply check_nodes_kind_ok.
Qed.

(** C10. The nodes that a successful traversal of an absolute query
    returns all satisfy the kind invariant; and when the traversal
    reaches the end of its steps with a node that violates it, the
    result is a [TypeError] and no node list. *)
Theorem traversal_kind_invariant
    (h : heap) (nodes : list node) (s : string) (allow_slice : bool) :
  (forall ns, _traverser h nodes s allow_slice = Ok ns ->
     Forall (fun n => kind_ok h allow_slice n = true) ns)
  /\ (forall fuel end_ single,
        String.eqb (slice_str s end_ 1) "." = false ->
        String.eqb (slice_str s end_ 1) "[" = false ->
        Forall (fun n : node => is_Some (h !! n.1)) nodes ->
        Exists (fun n => kind_ok h allow_slice n = false) nodes ->
        _traverse (S fuel) h nodes s end_ allow_slice single
        = Raise TypeError).
Proof.
  split.
  - intros ns H. unfold _traverser in H.
    apply bind_Ok in H as ([k e0] & _ & H).
    destruct (negb (String.eqb k "$")); [done|].
    apply bind_Ok in H as ([ns1 e1] & Ht & H).
    destruct (e1 <? String.length s)%nat; [done|]. inv H.
    by eapply traverse_kind_ok.
  - intros fuel end_ single Hdot Hbr Hall Hex. cbn [_traverse].
    rewrite Hdot, Hbr. by rewrite check_nodes_violation.
Qed.

Lemma traversal_kind_invariant_witness :
  Forall (fun n => kind_ok (doc_10_20_30 ++ [PList [PRef 0%nat]]) true n
                   = true)
    [(0%nat, KSlice 0 2 None)]
  /\ _traverse 1 doc_10_20_30 [(0%nat, KStr "a")] "$.a" 3 false false
     = Raise TypeError.
Proof.
  split.
  - apply (proj1 (traversal_kind_invariant
                    (doc_10_20_30 ++ [PList [PRef 0%nat]])
                    [(1%nat, KInt 0)] "$[0:2]" true)).
    vm_compute. reflexivity.
  - apply (proj2 (traversal_kind_invariant doc_10_20_30
                    [(0%nat, KStr "a")] "$.a" false)).
    + vm_compute. reflexivity.
    + vm_compute. reflexivity.
    + repeat constructor. vm_compute. eauto.
    + apply Exists_cons_hd. vm_compute. reflexivity.
Defined.

(** ** Strings *)

Section string_facts.
Implicit Types (s pre c r : string) (p : ascii -> bool).

Lemma str_app_cons a s r : String a s +:+ r = String a (s +:+ r).
Proof. reflexivity. Qed.

Lemma str_app_nil_l r : "" +:+ r = r.
Proof. reflexivity. Qed.

Lemma str_length_app s r :
  String.length (s +:+ r) = (String.length s + String.length r)%nat.
Proof.
  induction s as [|a s IH]; [done|].
  rewrite str_app_cons. simpl. by rewrite IH.
Qed.

Lemma str_drop_app pre r : str_drop (String.length pre) (pre +:+ r) = r.
Proof.
  induction pre as [|a pre IH]; [by destruct r|]. by rewrite str_app_cons.
Qed.

Lemma str_get_app pre r n :
  String.get (String.length pre + n) (pre +:+ r) = String.get n r.
Proof. induction pre as [|a pre IH]; [done|]. by rewrite str_app_cons. Qed.

Lemma str_get_length s n :
  is_Some (String.get n s) -> (n < String.length s)%nat.
Proof.
  revert n. induction s as [|a s IH]; intros n [x Hx]; simpl in *; [done|].
  destruct n; [lia|].
  assert (n < String.length s)%nat by (apply IH; eauto). lia.
Qed.

Lemma span_str_stop p c t r :
  str_forallb p c = true -> p t = false ->
  span_str p (c +:+ String t r) = c.
Proof.
  intros Hc Ht. induction c as [|a c IH].
  - rewrite str_app_nil_l. simpl. by rewrite Ht.
  - rewrite str_app_cons. simpl in *.
    apply andb_true_iff in Hc as [-> Hc]. by rewrite IH.
Qed.

Lemma span_str_length p s :
  (String.length (span_str p s) <= String.length s)%nat.
Proof. induction s; simpl; [lia|]. destruct (p _); simpl; lia. Qed.

Lemma str_drop_length n s :
  String.length (str_drop n s) = (String.length s - n)%nat.
Proof. revert s. induction n; intros [|a s]; simpl; auto. Qed.

Lemma str_app_assoc s r t : (s +:+ r) +:+ t = s +:+ (r +:+ t).
Proof.
  induction s as [|a s IH]; [done|]. rewrite !str_app_cons. by rewrite IH.
Qed.

Lemma str_app_nil_r s : s +:+ "" = s.
Proof.
  induction s as [|a s IH]; [done|]. rewrite str_app_cons. by rewrite IH.
Qed.

Lemma str_get_after pre c r n :
  String.get (String.length pre + String.length c + n) (pre +:+ c +:+ r)
  = String.get n r.
Proof. by rewrite <- Nat.add_assoc, !str_get_app. Qed.

Lemma str_get_after_0 pre c r :
  String.get (String.length pre + String.length c) (pre +:+ c +:+ r)
  = String.get 0 r.
Proof. rewrite <- (str_get_after pre c r 0). f_equal. lia. Qed.

Lemma str_get_after_1 pre c r :
  String.get (S (String.length pre + String.length c)) (pre +:+ c +:+ r)
  = String.get 1 r.
Proof. rewrite <- (str_get_after pre c r 1). f_equal. lia. Qed.
End string_facts.

Lemma str_join_app a b : str_join (a ++ b) = str_join a +:+ str_join b.
Proof.
  unfold str_join. induction a as [|x a IH]; simpl; [done|].
  by rewrite IH, str_app_assoc.
Qed.

Lemma str_escapes_spec (e : ascii) :
  char_in e str_escapes = true <-> e = "'"%char \/ e = "~"%char.
Proof.
  unfold char_in, str_escapes. simpl.
  rewrite !orb_true_iff, !Ascii.eqb_eq. intuition discriminate.
Qed.

(** ** The string reader *)

Lemma match_str_chunk_bounds s pos :
  (Nat.min pos (String.length s) <= (_match_str_chunk s pos).2
   <= String.length s)%nat.
Proof.
  unfold _match_str_chunk, match_pos. cbn [snd].
  pose proof (span_str_length str_plain
                (str_drop (Nat.min pos (String.length s)) s)) as H.
  rewrite str_drop_length in H. unfold str_plain in H. lia.
Qed.

Lemma match_str_chunk_stop pre c t r :
  str_forallb str_plain c = true -> str_plain t = false ->
  _match_str_chunk (pre +:+ c +:+ String t r) (String.length pre)
  = (c, (String.length pre + String.length c)%nat).
Proof.
  intros Hc Ht. unfold _match_str_chunk, match_pos.
  rewrite str_length_app, Nat.min_l by lia.
  rewrite str_drop_app. fold str_plain. by rewrite span_str_stop.
Qed.

(** More fuel than there are characters left changes nothing. *)
Lemma get_str_loop_fuel fuel : forall s end_ chunks,
  (1 <= fuel)%nat -> (String.length s <= end_ + fuel)%nat ->
  _get_str_loop (S fuel) s end_ chunks = _get_str_loop fuel s end_ chunks.
Proof.
  induction fuel as [|fuel IH]; intros s end_ chunks Hpos Hlen; [lia|].
  cbn [_get_str_loop].
  pose proof (match_str_chunk_bounds s end_) as Hb.
  destruct (_match_str_chunk s end_) as [g end1]. simpl in Hb.
  destruct (String.get end1 s) eqn:Ht; [|done].
  destruct (Ascii.eqb a "'"); [done|].
  destruct (String.get (S end1) s) eqn:He; [|done].
  destruct (negb (char_in a0 str_escapes)); [done|].
  assert (S end1 < String.length s)%nat by (apply str_get_length; eauto).
  apply IH; lia.
Qed.

(** The chunks read so far are a prefix of the result. *)
Lemma get_str_loop_chunks fuel : forall s end_ chunks,
  _get_str_loop fuel s end_ chunks
  = '(r, e) ← _get_str_loop fuel s end_ []; Ok (str_join chunks +:+ r, e).
Proof.
  induction fuel as [|fuel IH]; intros s end_ chunks; [done|].
  cbn [_get_str_loop].
  destruct (_match_str_chunk s end_) as [g end1].
  destruct (String.get end1 s) eqn:Ht; [|done].
  destruct (Ascii.eqb a "'").
  { simpl. by rewrite str_join_app. }
  destruct (String.get (S end1) s) eqn:He; [|done].
  destruct (negb (char_in a0 str_escapes)); [done|].
  rewrite IH. rewrite (IH _ _ (([] ++ [g]) ++ _)).
  destruct (_get_str_loop fuel s (S (S end1)) []) as [[r e]| |]; [|done..].
  simpl. rewrite !str_join_app. unfold str_join at 2 3. cbn [foldr].
  by rewrite ?str_app_nil_r, ?str_app_assoc, ?str_app_nil_l.
Qed.

(** C8, as stated, fails: inside a quoted string the escape [~!] is a
    syntax error, although [!] is in the set of the claim. *)
Lemma get_str_escape_set_counterexample :
  _get_value "'~!'" 0 = Raise SyntaxError
  /\ _get_value "'~!'" 0 <> Ok (PStr "!", 4%nat).
Proof. split; [by vm_compute|]. vm_compute. discriminate. Qed.

(** C8, amended.  In a quoted string read from [start], after a chunk
    [c] without quote or tilde, the escape introducer followed by [e]:
    when [e] is the quote or the tilde, [e] is appended unescaped after
    [c] and reading goes on behind it; any other [e] is a syntax error;
    and an introducer that ends the input is a syntax error. *)
Theorem get_str_escape (pre c rest : string) (e : ascii) :
  str_forallb str_plain c = true ->
  let s := pre +:+ c +:+ String "~" (String e rest) in
  let start := String.length pre in
  (e = "'"%char \/ e = "~"%char ->
     _get_str s start
     = '(r, end_) ← _get_str s (start + String.length c + 2);
       Ok (c +:+ String e r, end_))
  /\ (e <> "'"%char -> e <> "~"%char -> _get_str s start = Raise SyntaxError)
  /\ _get_str (pre +:+ c +:+ "~") start = Raise SyntaxError.
Proof.
  intros Hc s start.
  assert (Hs : String.length s
               = (start + String.length c + 2 + String.length rest)%nat).
  { unfold s, start. rewrite !str_length_app. simpl. lia. }
  assert (Hstep : forall chunks,
    _get_str_loop (S (String.length s)) s start chunks =
    if negb (char_in e str_escapes) then Raise SyntaxError
    else _get_str_loop (String.length s) s (S (S (start + String.length c)))
           ((chunks ++ [c]) ++ [String e ""])).
  { intros chunks. cbn [_get_str_loop]. unfold s at 1, start.
    rewrite match_str_chunk_stop by done.
    unfold s at 1 2. rewrite str_get_after_0, str_get_after_1. done. }
  split; [|split].
  - intros He%str_escapes_spec. unfold _get_str. rewrite Hstep, He.
    cbn [negb]. rewrite get_str_loop_chunks.
    rewrite <- (get_str_loop_fuel (String.length s)) by lia.
    replace (S (S (start + String.length c)))
      with (start + String.length c + 2)%nat by lia.
    destruct (_get_str_loop _ _ _ []) as [[r e']| |]; [|done..].
    simpl. by rewrite str_app_assoc, str_app_nil_r.
  - intros Hq Ht. unfold _get_str. rewrite Hstep.
    destruct (char_in e str_escapes) eqn:He; [|done].
    apply str_escapes_spec in He as [|]; done.
  - unfold _get_str. cbn [_get_str_loop].
    unfold _match_str_chunk, match_pos. rewrite !str_length_app.
    rewrite Nat.min_l by (unfold start; lia).
    unfold start. rewrite !str_drop_app.
    fold str_plain. rewrite (span_str_stop str_plain c "~" "") by done.
    by rewrite str_get_after_0, str_get_after_1.
Qed.

Lemma get_str_escape_witness :
  _get_str "'a~'b'" 1 = Ok ("a'b", 6%nat)
  /\ _get_str "'a~!b'" 1 = Raise SyntaxError.
Proof.
  split.
  - destruct (get_str_escape "'" "a" "b'" "'"%char eq_refl) as (Hin & _ & _).
    cbv zeta in Hin. etransitivity; [apply Hin; by left|].
    vm_compute. reflexivity.
  - destruct (get_str_escape "'" "a" "b'" "!"%char eq_refl) as (_ & Hout & _).
    apply Hout; discriminate.
Defined.

(** ** Fuel

    The loops of the readers, of the traverser and of the filter
    evaluator advance in the query at every turn, so the fuel that the
    entry points give them is never what stops them. *)

Lemma slice_str_length s : forall i k,
  (String.length (slice_str s i k) <= k)%nat.
Proof.
  unfold slice_str. induction s as [|a s IH]; intros i k.
  - destruct i, k; simpl; lia.
  - destruct i as [|i]; [destruct k as [|k]; simpl; [lia|]|simpl; apply IH].
    specialize (IH 0%nat k). lia.
Qed.

Lemma slice_str_full s : forall i k,
  (0 < k)%nat -> String.length (slice_str s i k) = k ->
  (i + k <= String.length s)%nat.
Proof.
  unfold slice_str. induction s as [|a s IH]; intros i k Hk H.
  - destruct i, k; simpl in H; lia.
  - destruct i as [|i].
    + destruct k as [|k]; [lia|]. simpl in H.
      destruct k as [|k]; [simpl; lia|].
      specialize (IH 0%nat (S k) ltac:(lia) ltac:(lia)). simpl. lia.
    + simpl in H. specialize (IH i k Hk H). simpl. lia.
Qed.

Lemma match_key_chunk_bounds s pos :
  (Nat.min pos (String.length s) <= (_match_key_chunk s pos).2
   <= String.length s)%nat.
Proof.
  unfold _match_key_chunk, match_pos. cbn [snd].
  pose proof (span_str_length (fun c => negb (char_in c key_ctrl))
                (str_drop (Nat.min pos (String.length s)) s)) as H.
  rewrite str_drop_length in H. lia.
Qed.

Lemma match_key_chunk_length s pos :
  (pos <= String.length s)%nat ->
  (_match_key_chunk s pos).2 = (pos + String.length (_match_key_chunk s pos).1)%nat.
Proof.
  intros Hp. unfold _match_key_chunk, match_pos. cbn [fst snd].
  by rewrite Nat.min_l.
Qed.

Lemma str_get_Some_lt s n a : String.get n s = Some a -> (n < String.length s)%nat.
Proof. intros H. apply str_get_length. eauto. Qed.

(** The key reader consumes at least the characters of the key. *)
Lemma get_key_loop_pos fuel : forall s p chunks k e,
  (p <= String.length s)%nat ->
  _get_key_loop fuel s p chunks = Ok (k, e) ->
  (p + String.length k <= e + String.length (str_join chunks))%nat
  /\ (e <= String.length s)%nat.
Proof.
  induction fuel as [|fuel IH]; intros s p chunks k e Hp H; [done|].
  cbn [_get_key_loop] in H.
  pose proof (match_key_chunk_bounds s p) as Hb.
  pose proof (match_key_chunk_length s p Hp) as Hl.
  destruct (_match_key_chunk s p) as [g end1]. cbn [fst snd] in *.
  destruct (negb (String.eqb (slice_str s end1 1) "~")).
  { inv H. rewrite str_join_app, str_length_app. unfold str_join. simpl.
    rewrite str_app_nil_r. lia. }
  destruct (String.get (S end1) s) eqn:He; [|done].
  destruct (negb (char_in a key_escapes)); [done|].
  apply str_get_Some_lt in He.
  apply IH in H; [|lia]. destruct H as [H1 H2]. split; [|done].
  rewrite !str_join_app, !str_length_app in H1. unfold str_join in H1 at 2 3.
  simpl in H1. rewrite str_app_nil_r in H1. simpl in H1. lia.
Qed.

Lemma get_key_pos s p k e :
  (p <= String.length s)%nat -> _get_key s p = Ok (k, e) ->
  (p + String.length k <= e <= String.length s)%nat.
Proof.
  intros Hp H. apply get_key_loop_pos in H; [|done]. simpl in H. lia.
Qed.

(** More fuel than there are characters left changes nothing. *)
Lemma get_key_loop_fuel fuel : forall s p chunks,
  (1 <= fuel)%nat -> (String.length s <= p + fuel)%nat ->
  _get_key_loop (S fuel) s p chunks = _get_key_loop fuel s p chunks.
Proof.
  induction fuel as [|fuel IH]; intros s p chunks Hpos Hlen; [lia|].
  cbn [_get_key_loop].
  pose proof (match_key_chunk_bounds s p) as Hb.
  destruct (_match_key_chunk s p) as [g end1]. cbn [snd] in Hb.
  destruct (negb (String.eqb (slice_str s end1 1) "~")); [done|].
  destruct (String.get (S end1) s) as [esc|] eqn:He; [|done].
  destruct (negb (char_in esc key_escapes)); [done|].
  apply str_get_Some_lt in He. apply IH; lia.
Qed.

Lemma match_idx_pos s p g e :
  (p <= String.length s)%nat -> _match_idx s p = Some (g, e) -> (p <= e)%nat.
Proof.
  unfold _match_idx, match_pos. intros Hp H.
  destruct (re_idx _); simplify_eq/=. lia.
Qed.

Lemma match_int_pos s p g e :
  (p <= String.length s)%nat -> _match_int s p = Some (g, e) -> (p <= e)%nat.
Proof.
  unfold _match_int, match_pos. intros Hp H.
  destruct (re_int _); simplify_eq/=. lia.
Qed.

Lemma get_idx_pos m : (_get_idx m).2 = m.2.
Proof. destruct m as [g e]. unfold _get_idx. by repeat case_match. Qed.

Lemma get_operator_pos s p : (p <= (_get_operator s p).2)%nat.
Proof. unfold _get_operator. repeat case_match; simpl; lia. Qed.

Lemma get_str_loop_pos fuel : forall s p chunks k e,
  (p <= String.length s)%nat ->
  _get_str_loop fuel s p chunks = Ok (k, e) -> (p <= e)%nat.
Proof.
  induction fuel as [|fuel IH]; intros s p chunks k e Hp H; [done|].
  cbn [_get_str_loop] in H.
  pose proof (match_str_chunk_bounds s p) as Hb.
  destruct (_match_str_chunk s p) as [g end1]. cbn [snd] in Hb.
  destruct (String.get end1 s) eqn:Ht; [|done].
  destruct (Ascii.eqb a "'"); [inv H; lia|].
  destruct (String.get (S end1) s) eqn:He; [|done].
  destruct (negb (char_in a0 str_escapes)); [done|].
  apply str_get_Some_lt in He. apply IH in H; lia.
Qed.

Lemma get_value_pos s p v e : _get_value s p = Ok (v, e) -> (p <= e)%nat.
Proof.
  unfold _get_value. intros H.
  destruct (String.get p s) eqn:Hp; [|done]. apply str_get_Some_lt in Hp.
  repeat case_match; simplify_eq/=; try lia.
  - apply bind_Ok in H as ([k e'] & Hs & H). simplify_eq/=.
    apply get_str_loop_pos in Hs; lia.
  - unfold _match_number, match_pos in *. destruct (re_int _); simplify_eq/=. lia.
  - unfold _match_number, match_pos in *. destruct (re_int _); simplify_eq/=. lia.
Qed.

Lemma slice_str_char s p (c : ascii) :
  String.eqb (slice_str s p 1) (String c "") = true -> (p + 1 <= String.length s)%nat.
Proof.
  intros H%String.eqb_eq. apply slice_str_full; [lia|]. by rewrite H.
Qed.

Lemma slice_str_two s p (c d : ascii) :
  String.eqb (slice_str s p 2) (String c (String d "")) = true ->
  (p + 2 <= String.length s)%nat.
Proof.
  intros H%String.eqb_eq. apply slice_str_full; [lia|]. by rewrite H.
Qed.

Lemma slice_str_one_ne_two s p (c d : ascii) :
  String.eqb (slice_str s p 1) (String c (String d "")) = false.
Proof.
  apply String.eqb_neq. intros H.
  pose proof (slice_str_length s p 1) as Hl. rewrite H in Hl. simpl in Hl. lia.
Qed.

Tactic Notation "bind_step" hyp(H) "as" simple_intropattern(x) ident(Hx) :=
  apply bind_Ok in H as (x & Hx & H).

Lemma bracket_key_pos s g e1 single k e2 :
  bracket_key s (g, e1) single = Ok (k, e2) -> (e1 <= e2)%nat.
Proof.
  intros H. unfold bracket_key in H.
  pose proof (get_idx_pos (g, e1)) as Hi.
  destruct (_get_idx (g, e1)) as [idx e1']. cbn [snd] in Hi. subst e1'.
  destruct (negb (String.eqb (slice_str s e1 1) ":")) eqn:Hc;
    [simplify_eq/=; lia|].
  apply negb_false_iff, slice_str_char in Hc.
  destruct single; [done|].
  destruct (_match_idx s (S e1)) as [[g2 e2']|] eqn:Hm2; [|done].
  apply match_idx_pos in Hm2; [|lia].
  pose proof (get_idx_pos (g2, e2')) as Hi2.
  destruct (_get_idx (g2, e2')) as [idx2 e2'']. cbn [snd] in Hi2. subst e2''.
  destruct (negb (String.eqb (slice_str s e2' 1) ":")) eqn:Hc2;
    [simplify_eq/=; lia|].
  apply negb_false_iff, slice_str_char in Hc2.
  destruct (_match_int s (S e2')) as [[g3 e3]|] eqn:Hm3; [|done].
  apply match_int_pos in Hm3; [|lia]. simplify_eq/=. lia.
Qed.

Lemma traverse_S fuel h nodes s p a sg :
  _traverse (S fuel) h nodes s p a sg =
  ltac:(let t := eval cbn [_traverse] in (_traverse (S fuel) h nodes s p a sg)
        in exact t).
Proof. reflexivity. Qed.

Lemma filter_nodes_S fuel h nodes s p :
  _filter_nodes (S fuel) h nodes s p =
  ltac:(let t := eval cbn [_filter_nodes] in (_filter_nodes (S fuel) h nodes s p)
        in exact t).
Proof. reflexivity. Qed.

Lemma traverse_filter_pos fuel :
  (forall h nodes s p a sg ns e,
     (p <= String.length s)%nat ->
     _traverse fuel h nodes s p a sg = Ok (ns, e) -> (p <= e)%nat)
  /\ (forall h nodes s p ns e,
        (p <= String.length s)%nat ->
        _filter_nodes fuel h nodes s p = Ok (ns, e) -> (p <= e)%nat).
Proof.
  induction fuel as [|fuel [IHt IHf]]; [split; intros; done|]. split.
  - intros h nodes s p a sg ns e Hp H. rewrite traverse_S in H.
    destruct (String.eqb (slice_str s p 1) ".") eqn:Hdot.
    { apply slice_str_char in Hdot.
      bind_step H as [k end1] Hkey. bind_step H as nodes1 Hstep.
      apply get_key_pos in Hkey; [|lia]. apply IHt in H; lia. }
    destruct (String.eqb (slice_str s p 1) "[") eqn:Hbr.
    { apply slice_str_char in Hbr.
      bind_step H as [nodes1 end1] Hgroup.
      destruct (String.get end1 s) eqn:Hget; [|done].
      apply str_get_Some_lt in Hget.
      destruct (negb (Ascii.eqb a0 "]")); [done|].
      apply IHt in H; [|lia].
      assert (S p <= end1)%nat; [|lia].
      destruct (_match_idx s (S p)) as [[g e1]|] eqn:Hm.
      - apply match_idx_pos in Hm; [|lia].
        bind_step Hgroup as [k e2] Hk. bind_step Hgroup as nodes2 Hstep.
        simplify_eq/=. apply bracket_key_pos in Hk. lia.
      - destruct sg; [done|]. bind_step Hgroup as nodes2 Hexp.
        apply IHf in Hgroup; lia. }
    bind_step H as us Hcheck. simplify_eq/=. lia.
  - intros h nodes s p ns e Hp H. rewrite filter_nodes_S in H.
    set (end0 := if String.eqb (slice_str s p 1) "!" then S p else p) in *.
    assert (p <= end0 <= String.length s)%nat as Hend0.
    { subst end0. destruct (String.eqb (slice_str s p 1) "!") eqn:Hn; [|lia].
      apply slice_str_char in Hn. lia. }
    bind_step H as [k end1] Hkey.
    apply get_key_pos in Hkey; [|lia].
    destruct (negb (String.eqb k "@")); [done|].
    bind_step H as [fnodes end2] Htrav. apply IHt in Htrav; [|lia].
    bind_step H as pairs Hpairs.
    pose proof (get_operator_pos s end2) as Hop.
    destruct (_get_operator s end2) as [op end3]. cbn [snd] in Hop.
    bind_step H as [nodes1 end4] Hcmp.
    assert (end3 <= end4)%nat as H34.
    { destruct op as [op|]; [|simplify_eq/=; lia].
      destruct (String.eqb (slice_str s p 1) "!"); [done|].
      destruct (negb (String.eqb (slice_str s end3 1) "@")) eqn:Hat.
      - bind_step Hcmp as [v e4] Hval. bind_step Hcmp as kept Hkept.
        simplify_eq/=. by apply get_value_pos in Hval.
      - apply negb_false_iff, slice_str_char in Hat.
        bind_step Hcmp as [k2 e4] Hkey2.
        apply get_key_pos in Hkey2; [|lia].
        destruct (negb (String.eqb k2 "@")); [done|].
        bind_step Hcmp as [f2 e5] Htrav2. apply IHt in Htrav2; [|lia].
        bind_step Hcmp as kept Hkept. simplify_eq/=. lia. }
    destruct (negb (String.eqb (slice_str s end4 2) "&&")) eqn:Hand;
      [simplify_eq/=; lia|].
    apply negb_false_iff, slice_str_two in Hand.
    apply IHf in H; lia.
Qed.

(** With the fuel of the entry points, one more unit of fuel changes
    nothing: the loops stop on the query, never on the fuel. *)
Lemma traverse_filter_fuel fuel :
  (forall h nodes s p a sg,
     (p <= String.length s)%nat -> (String.length s < p + fuel)%nat ->
     _traverse (S fuel) h nodes s p a sg = _traverse fuel h nodes s p a sg)
  /\ (forall h nodes s p,
        (p <= String.length s)%nat -> (String.length s < p + fuel)%nat ->
        _filter_nodes (S fuel) h nodes s p = _filter_nodes fuel h nodes s p).
Proof.
  induction fuel as [|fuel [IHt IHf]]; [split; intros; lia|].
  destruct (traverse_filter_pos fuel) as [Post Posf]. split.
  - intros h nodes s p a sg Hp Hfuel.
    rewrite (traverse_S (S fuel)), (traverse_S fuel).
    destruct (String.eqb (slice_str s p 1) ".") eqn:Hdot.
    { apply slice_str_char in Hdot.
      destruct (_get_key s (S p)) as [[k end1]| |] eqn:Hkey; [|done..].
      apply get_key_pos in Hkey; [|lia]. cbn [mbind res_bind].
      destruct (step_nodes h nodes (KStr k)) as [nodes1| |]; [|done..].
      cbn [mbind res_bind].
      apply IHt; lia. }
    destruct (String.eqb (slice_str s p 1) "[") eqn:Hbr; [|done].
    apply slice_str_char in Hbr.
    destruct (_match_idx s (S p)) as [[g e1]|] eqn:Hm.
    + apply match_idx_pos in Hm; [|lia].
      destruct (bracket_key s (g, e1) sg) as [[k e2]| |] eqn:Hk; [|done..].
      apply bracket_key_pos in Hk. cbn [mbind res_bind].
      destruct (step_nodes h nodes k) as [nodes1| |]; [|done..].
      cbn [mbind res_bind].
      destruct (String.get e2 s) as [t|] eqn:Hget; [|done].
      apply str_get_Some_lt in Hget.
      destruct (negb (Ascii.eqb t "]")); [done|]. apply IHt; lia.
    + destruct sg; [done|].
      destruct (expand_nodes h nodes) as [nodes0| |]; [|done..].
      cbn [mbind res_bind]. rewrite IHf by lia.
      destruct (_filter_nodes fuel h nodes0 s (S p))
        as [[nodes1 end1]| |] eqn:Hf; [|done..].
      apply Posf in Hf; [|lia]. cbn [mbind res_bind].
      destruct (String.get end1 s) as [t|] eqn:Hget; [|done].
      apply str_get_Some_lt in Hget.
      destruct (negb (Ascii.eqb t "]")); [done|]. apply IHt; lia.
  - intros h nodes s p Hp Hfuel.
    rewrite (filter_nodes_S (S fuel)), (filter_nodes_S fuel).
    set (end0 := if String.eqb (slice_str s p 1) "!" then S p else p) in *.
    assert (p <= end0 <= String.length s)%nat as Hend0.
    { subst end0. destruct (String.eqb (slice_str s p 1) "!") eqn:Hn; [|lia].
      apply slice_str_char in Hn. lia. }
    destruct (_get_key s end0) as [[k end1]| |] eqn:Hkey; [|done..].
    apply get_key_pos in Hkey; [|lia]. cbn [mbind res_bind].
    destruct (negb (String.eqb k "@")) eqn:Hk; [done|].
    apply negb_false_iff, String.eqb_eq in Hk. subst k. simpl in Hkey.
    rewrite IHt by lia.
    destruct (_traverse fuel h nodes s end1 false true)
      as [[fnodes end2]| |] eqn:Htrav; [|done..].
    apply Post in Htrav; [|lia]. cbn [mbind res_bind].
    destruct (present_pairs h _ _) as [pairs| |]; [|done..].
    cbn [mbind res_bind].
    pose proof (get_operator_pos s end2) as Hop.
    destruct (_get_operator s end2) as [op end3]. cbn [snd] in Hop.
    match goal with
    | |- (?inner1 ≫= ?k1) = (?inner2 ≫= ?k2) =>
        assert (inner1 = inner2) as Hinner
    end.
    { destruct op as [op|]; [|done].
      destruct (String.eqb (slice_str s p 1) "!"); [done|].
      destruct (negb (String.eqb (slice_str s end3 1) "@")) eqn:Hat; [done|].
      apply negb_false_iff, slice_str_char in Hat.
      destruct (_get_key s end3) as [[k2 e4]| |] eqn:Hkey2; [|done..].
      apply get_key_pos in Hkey2; [|lia]. cbn [mbind res_bind].
      destruct (negb (String.eqb k2 "@")); [done|].
      rewrite IHt by lia. done. }
    rewrite Hinner.
    match goal with
    | |- (?inner ≫= _) = _ => destruct inner as [[nodes1 end4]| |] eqn:Hcmp
    end; [|done..].
    cbn [mbind res_bind].
    assert (end3 <= end4)%nat as H34.
    { destruct op as [op|]; [|simplify_eq/=; lia].
      destruct (String.eqb (slice_str s p 1) "!"); [done|].
      destruct (negb (String.eqb (slice_str s end3 1) "@")) eqn:Hat.
      - bind_step Hcmp as [v e4] Hval. bind_step Hcmp as kept Hkept.
        simplify_eq/=. by apply get_value_pos in Hval.
      - apply negb_false_iff, slice_str_char in Hat.
        bind_step Hcmp as [k2 e4] Hkey2.
        apply get_key_pos in Hkey2; [|lia].
        destruct (negb (String.eqb k2 "@")); [done|].
        bind_step Hcmp as [f2 e5] Htrav2. apply Post in Htrav2; [|lia].
        bind_step Hcmp as kept Hkept. simplify_eq/=. lia. }
    destruct (negb (String.eqb (slice_str s end4 2) "&&")) eqn:Hand; [done|].
    apply negb_false_iff, slice_str_two in Hand.
    apply IHf; lia.
Qed.

Lemma traverse_fuel_adequate extra h nodes s p a sg :
  (p <= String.length s)%nat ->
  _traverse (query_fuel s + extra) h nodes s p a sg
  = _traverse (query_fuel s) h nodes s p a sg.
Proof.
  intros Hp. induction extra as [|extra IH].
  - by rewrite Nat.add_0_r.
  - rewrite Nat.add_succ_r.
    rewrite (proj1 (traverse_filter_fuel _)); [done|done|].
    unfold query_fuel. lia.
Qed.

Lemma filter_nodes_fuel_adequate extra h nodes s p :
  (p <= String.length s)%nat ->
  _filter_nodes (query_fuel s + extra) h nodes s p
  = _filter_nodes (query_fuel s) h nodes s p.
Proof.
  intros Hp. induction extra as [|extra IH].
  - by rewrite Nat.add_0_r.
  - rewrite Nat.add_succ_r.
    rewrite (proj2 (traverse_filter_fuel _)); [done|done|].
    unfold query_fuel. lia.
Qed.

(** The key reader returns a key that starts with the chunks read so far
    and the first chunk it reads, or raises a syntax error. *)
Lemma get_key_loop_outcome fuel : forall s p chunks,
  (p <= String.length s)%nat -> (String.length s < p + fuel)%nat ->
  (exists t e, _get_key_loop fuel s p chunks
          = Ok (str_join chunks +:+ (_match_key_chunk s p).1 +:+ t, e))
  \/ _get_key_loop fuel s p chunks = Raise SyntaxError.
Proof.
  induction fuel as [|fuel IH]; intros s p chunks Hp Hfuel; [lia|].
  cbn [_get_key_loop].
  pose proof (match_key_chunk_bounds s p) as Hb.
  destruct (_match_key_chunk s p) as [g end1]. cbn [fst snd] in *.
  destruct (negb (String.eqb (slice_str s end1 1) "~")).
  { left. exists "", end1. rewrite str_join_app. unfold str_join at 2.
    simpl. by rewrite !str_app_nil_r. }
  destruct (String.get (S end1) s) as [esc|] eqn:He; [|by right].
  destruct (negb (char_in esc key_escapes)); [by right|].
  apply str_get_Some_lt in He.
  destruct (IH s (S (S end1)) ((chunks ++ [g]) ++ [String esc ""]))
    as [(t & e & Hok)|Herr]; [lia..| |by right].
  left. exists (String esc "" +:+ (_match_key_chunk s (S (S end1))).1 +:+ t), e.
  rewrite Hok. do 2 f_equal.
  rewrite !str_join_app. unfold str_join at 2 3. cbn [foldr].
  by rewrite !str_app_nil_r, !str_app_assoc.
Qed.

(** ** Evaluations at the inputs where the program leaves its tests *)

(** C2.  On the document [[1]], the path [$[0]] resolves to the node
    [([1], 0)] and the filter [@==1] keeps that node, so the assertion
    as specified succeeds; the executor filters the root wrapper's node
    instead, gets the empty set and raises [ValueError]. *)
Theorem assert_filters_root_nodes :
  let h0 := [PList [PInt 1]; PList [PRef 0%nat]] in
  let root_nodes : list node := [(1%nat, KInt 0)] in
  _traverser h0 root_nodes "$[0]" false = Ok [(0%nat, KInt 0)]
  /\ _filter_nodes (query_fuel "@==1") h0 [(0%nat, KInt 0)] "@==1" 0
     = Ok ([(0%nat, KInt 0)], 4%nat)
  /\ assert_as_specified h0 root_nodes "$[0]" "@==1" = Ok ()
  /\ _filter_nodes (query_fuel "@==1") h0 root_nodes "@==1" 0
     = Ok ([], 4%nat)
  /\ patch [PList [PInt 1]] (PRef 0%nat)
       (inl (Operation "assert" "$[0]" None (Some "@==1")))
     = (Raise ValueError, h0).
Proof. by vm_compute. Qed.

(** C3.  On the node [([0], 0)]: the query [@ <= 0] of the claim is a
    syntax error, because the key reader takes the blank into the key;
    without blanks, [@<0] discards the node, [@==0] keeps it and [@!=0]
    discards it, but [@<=0] and [@>=0] are syntax errors, because the
    operator reader compares a slice of one character with the two
    characters of the operator and so reads [<] and [>] alone: on no
    query at all does it return [le] or [ge]. *)
Theorem operator_reader_misses_le_ge :
  (forall (s : string) (p : nat),
     (_get_operator s p).1 <> Some operator.le
     /\ (_get_operator s p).1 <> Some operator.ge)
  /\ assert_on_zero "@ <= 0" = (Raise SyntaxError, doc_zero)
  /\ assert_on_zero "@<=0" = (Raise SyntaxError, doc_zero)
  /\ assert_on_zero "@>=0" = (Raise SyntaxError, doc_zero)
  /\ _get_operator "<=" 0 = (Some operator.lt, 1%nat)
  /\ _get_operator ">=" 0 = (Some operator.gt, 1%nat)
  /\ assert_on_zero "@<0" = (Raise ValueError, doc_zero)
  /\ assert_on_zero "@==0" = (Ok (PInt 0), doc_zero)
  /\ assert_on_zero "@!=0" = (Raise ValueError, doc_zero)
  /\ _filter_nodes (query_fuel "@ <= 0") doc_zero node_zero "@ <= 0" 0
     = Raise SyntaxError
  /\ _filter_nodes (query_fuel "@<=0") doc_zero node_zero "@<=0" 0
     = Raise SyntaxError
  /\ _filter_nodes (query_fuel "@==0") doc_zero node_zero "@==0" 0
     = Ok (node_zero, 4%nat).
Proof.
  split; [|by vm_compute].
  intros s p. unfold _get_operator. rewrite !slice_str_one_ne_two.
  repeat case_match; simpl; split; discriminate.
Qed.

(** C4.  The conjunction keeps the node [([0], 0)] when it is written
    without blanks; with the blanks of the claim around the operators
    and the separators it is a syntax error, so blanks do change the
    result: every query with a blank behind its first [@] is a syntax
    error, on every node list.  A blank before the separator stops the
    filter there, and the rest of the query is refused as unread. *)
Theorem blanks_change_the_filter :
  (forall (fuel : nat) (h : heap) (nodes : list node) (rest : string),
     _filter_nodes (S fuel) h nodes ("@ " +:+ rest) 0 = Raise SyntaxError)
  /\ assert_on_zero "@!=1&&@!=2&&@!=3" = (Ok (PInt 0), doc_zero)
  /\ assert_on_zero "@ != 1 && @ != 2 && @ != 3"
     = (Raise SyntaxError, doc_zero)
  /\ assert_on_zero "@!=1 &&@!=2 &&@!=3" = (Raise SyntaxError, doc_zero)
  /\ assert_on_zero "@!=1&& @!=2&& @!=3" = (Raise SyntaxError, doc_zero)
  /\ _filter_nodes (query_fuel "@!=1&&@!=2&&@!=3") doc_zero node_zero
       "@!=1&&@!=2&&@!=3" 0
     = Ok (node_zero, 16%nat)
  /\ _filter_nodes (query_fuel "@ != 1 && @ != 2 && @ != 3") doc_zero
       node_zero "@ != 1 && @ != 2 && @ != 3" 0
     = Raise SyntaxError
  /\ _filter_nodes (query_fuel "@!=1 &&@!=2 &&@!=3") doc_zero node_zero
       "@!=1 &&@!=2 &&@!=3" 0
     = Ok (node_zero, 4%nat)
  /\ _get_key "@ != 1" 0 = Ok ("@ ", 2%nat).
Proof.
  split; [|by vm_compute].
  intros fuel h nodes rest. rewrite filter_nodes_S.
  change ("@ " +:+ rest) with (String "@" (String " " rest)).
  cbn [slice_str substring String.eqb Ascii.eqb Bool.eqb].
  set (s := String "@" (String " " rest)).
  destruct (get_key_loop_outcome (S (String.length s)) s 0 [])
    as [(t & e & Hok)|Herr]; [lia..| |].
  - unfold _get_key. rewrite Hok. cbn [mbind res_bind].
    unfold _match_key_chunk, match_pos, s. cbn. done.
  - unfold _get_key. by rewrite Herr.
Qed.

(** C6.  A numeral above [sys.maxsize] is read as an integer of any
    size: the index and the bounds of a slice are accepted and returned
    in the node. *)
Theorem oversized_numbers_are_accepted :
  let h0 := doc_10_20_30 ++ [PList [PRef 0%nat]] in
  let root_nodes : list node := [(1%nat, KInt 0)] in
  (maxsize < 99999999999999999999)%Z
  /\ _traverser h0 root_nodes "$[99999999999999999999]" false
     = Ok [(0%nat, KInt 99999999999999999999)]
  /\ _traverser h0 root_nodes "$[99999999999999999999:0]" true
     = Ok [(0%nat, KSlice 99999999999999999999 0 None)]
  /\ _traverser h0 root_nodes "$[0:99999999999999999999]" true
     = Ok [(0%nat, KSlice 0 99999999999999999999 None)]
  /\ _traverser h0 root_nodes "$[0:1:99999999999999999999]" true
     = Ok [(0%nat, KSlice 0 1 (Some 99999999999999999999))]
  /\ _get_idx ("99999999999999999999", 22%nat)
     = (99999999999999999999, 22%nat).
Proof. by vm_compute. Qed.

(** C7.  The literal reader has no configuration: [Infinity] and
    [-Infinity], whatever follows them, always evaluate to the infinite
    floats, and a filter can compare with them. *)
Theorem infinity_is_always_allowed (rest : string) :
  _get_value ("Infinity" +:+ rest) 0
  = Ok (PFloat (S754_infinity false), 8%nat)
  /\ _get_value ("-Infinity" +:+ rest) 0
     = Ok (PFloat (S754_infinity true), 9%nat)
  /\ _traverser (doc_10_20_30 ++ [PList [PRef 0%nat]]) [(1%nat, KInt 0)]
       "$[@<Infinity]" false
     = Ok [(0%nat, KInt 0); (0%nat, KInt 1); (0%nat, KInt 2)].
Proof. by destruct rest; vm_compute. Qed.

(** ** The examples of the documentation *)

Example apply_patch_del_example :
  patch [PList [PInt 1; PInt 2; PInt 3]] (PRef 0%nat)
    (inl (Operation "del" "$[1]" None None))
  = (Ok (PRef 0%nat), [PList [PInt 1; PInt 3]; PList [PRef 0%nat]]).
Proof. by vm_compute. Qed.

Example select_index_example :
  _traverser [PList []; PList [PRef 0%nat]] [(1%nat, KInt 0)]
    "$[-1]" false
  = Ok [(0%nat, KInt (-1))].
Proof. by vm_compute. Qed.

Example filter_has_key_example :
  _filter_nodes (query_fuel "@") [PList []] [(0%nat, KInt 0)] "@" 0
  = Ok ([], 1%nat)
  /\ _filter_nodes (query_fuel "@") doc_zero node_zero "@" 0
     = Ok (node_zero, 1%nat).
Proof. by vm_compute. Qed.

(** * Further properties *)

(** ** More on strings *)

Lemma span_str_app p g y :
  str_forallb p g = true -> span_str p (g +:+ y) = g +:+ span_str p y.
Proof.
  intros Hg. induction g as [|a g IH]; [done|].
  rewrite str_app_cons. simpl in *.
  apply andb_true_iff in Hg as [-> Hg]. by rewrite IH, str_app_cons.
Qed.

Lemma slice_str_app pre r n k :
  slice_str (pre +:+ r) (String.length pre + n) k = slice_str r n k.
Proof.
  unfold slice_str. induction pre as [|a pre IH]; [done|].
  by rewrite str_app_cons.
Qed.

Lemma slice_str_after pre g r k :
  slice_str (pre +:+ g +:+ r) (String.length pre + String.length g) k
  = slice_str r 0 k.
Proof.
  rewrite <- (slice_str_app g r 0 k), <- (slice_str_app pre (g +:+ r)).
  f_equal. lia.
Qed.

Lemma str_forallb_app p g1 g2 :
  str_forallb p (g1 +:+ g2) = str_forallb p g1 && str_forallb p g2.
Proof.
  induction g1 as [|a g1 IH]; [done|].
  rewrite str_app_cons. simpl. by rewrite IH, andb_assoc.
Qed.

Lemma ends_key_span rest :
  ends_key rest = true -> span_str key_plain rest = "".
Proof.
  destruct rest as [|c r]; [done|]. cbn [ends_key span_str].
  intros [Hc _]%andb_true_iff. unfold key_plain. by rewrite Hc.
Qed.

Lemma ends_key_slice rest :
  ends_key rest = true -> String.eqb (slice_str rest 0 1) "~" = false.
Proof.
  destruct rest as [|c r]; [done|]. cbn [ends_key].
  intros [_ Hc]%andb_true_iff. apply negb_true_iff in Hc.
  unfold slice_str. cbn [substring]. destruct r; cbn [substring String.eqb];
    by rewrite Hc.
Qed.

Lemma match_key_chunk_at pre g y :
  str_forallb key_plain g = true -> span_str key_plain y = "" ->
  _match_key_chunk (pre +:+ g +:+ y) (String.length pre)
  = (g, (String.length pre + String.length g)%nat).
Proof.
  intros Hg Hy. unfold _match_key_chunk, match_pos.
  rewrite str_length_app, Nat.min_l by lia.
  rewrite str_drop_app. fold key_plain.
  by rewrite span_str_app, Hy, str_app_nil_r.
Qed.

(** ** Keys: writing and reading *)

Lemma key_tail_span tail :
  ends_key tail || bad_key_escape tail = true ->
  span_str key_plain tail = "".
Proof.
  intros [H|H]%orb_true_iff; [by apply ends_key_span|].
  destruct tail as [|c r]; [done|].
  destruct (Ascii.eqb_spec c "~") as [->|Hc]; [done|].
  exfalso. revert H. cbn [bad_key_escape].
  destruct c as [[] [] [] [] [] [] [] []]; try done; by destruct r.
Qed.

(** The key reader on an escaped key [k] followed by [tail]: the key is
    returned when [tail] ends it, and a bad escape in [tail] is a syntax
    error. *)
Lemma get_key_loop_escape (tail : string) (k : string) :
  ends_key tail || bad_key_escape tail = true ->
  forall (pre g0 : string) (chunks : list string) (fuel : nat),
  str_forallb key_plain g0 = true ->
  (String.length (escape_key k) < fuel)%nat ->
  _get_key_loop fuel (pre +:+ g0 +:+ escape_key k +:+ tail)
    (String.length pre) chunks
  = if ends_key tail then
      Ok (str_join chunks +:+ g0 +:+ k,
          (String.length pre + String.length g0
           + String.length (escape_key k))%nat)
    else Raise SyntaxError.
Proof.
  intros Htail. pose proof (key_tail_span tail Htail) as Hspan.
  induction k as [|c k IH]; intros pre g0 chunks fuel Hg0 Hfuel.
  - destruct fuel as [|fuel]; [simpl in Hfuel; lia|].
    cbn [_get_key_loop escape_key]. rewrite str_app_nil_l.
    rewrite match_key_chunk_at by done.
    rewrite slice_str_after.
    destruct (ends_key tail) eqn:Hends.
    + rewrite ends_key_slice by done. cbn [negb].
      rewrite str_join_app. unfold str_join at 2. cbn [foldr].
      rewrite !str_app_nil_r.
      f_equal. apply pair_equal_spec. split; [done|simpl; lia].
    + rewrite orb_false_l in Htail. rewrite str_get_after_1.
      destruct tail as [|t r]; [done|].
      destruct (Ascii.eqb_spec t "~") as [->|Ht].
      * destruct r as [|e r]; [done|].
        cbn [bad_key_escape] in Htail.
        unfold slice_str. cbn [substring String.get].
        replace (substring 0 0 r) with "" by (by destruct r).
        cbn [String.eqb Ascii.eqb Bool.eqb negb]. by rewrite Htail.
      * exfalso. revert Htail. cbn [bad_key_escape].
        destruct t as [[] [] [] [] [] [] [] []]; try done; by destruct r.
  - revert Hfuel. cbn [escape_key].
    destruct (key_plain c) eqn:Hc; cbn [String.length]; intros Hfuel.
    + replace (pre +:+ g0 +:+ String c (escape_key k) +:+ tail)
        with (pre +:+ (g0 +:+ String c "") +:+ escape_key k +:+ tail)
        by (by rewrite !str_app_assoc).
      rewrite IH.
      * destruct (ends_key tail); [|done].
        rewrite !str_app_assoc, str_length_app. simpl.
        rewrite !str_app_cons, str_app_nil_l.
        f_equal. apply pair_equal_spec. split; [done|lia].
      * rewrite str_forallb_app, Hg0. simpl. by rewrite Hc.
      * lia.
    + destruct fuel as [|fuel]; [lia|]. cbn [_get_key_loop].
      assert (span_str key_plain (String "~" (String c (escape_key k)) +:+ tail) = "")
        as Hstop by done.
      rewrite !str_app_cons.
      rewrite match_key_chunk_at by done.
      rewrite slice_str_after. unfold slice_str at 1.
      cbn [substring String.eqb Ascii.eqb Bool.eqb negb].
      replace (match escape_key k +:+ tail with "" => "" | String _ _ => "" end)
        with "" by (by destruct (escape_key k +:+ tail)).
      cbn [String.eqb negb].
      rewrite str_get_after_1. cbn [String.get].
      assert (char_in c key_escapes = true) as ->.
      { unfold key_plain in Hc. by apply negb_false_iff in Hc. }
      cbn [negb].
      replace (pre +:+ g0 +:+ String "~" (String c (escape_key k +:+ tail)))
        with ((pre +:+ g0 +:+ String "~" (String c "")) +:+ "" +:+ escape_key k +:+ tail)
        by (by rewrite !str_app_assoc).
      replace (S (S (String.length pre + String.length g0)))
        with (String.length (pre +:+ g0 +:+ String "~" (String c "")))
        by (rewrite !str_length_app; simpl; lia).
      rewrite IH; [|done|lia].
      destruct (ends_key tail); [|done].
      rewrite !str_join_app. unfold str_join at 2 3. cbn [foldr].
      rewrite !str_app_nil_r, !str_length_app, !str_app_assoc. simpl.
      f_equal. apply pair_equal_spec. split; [done|lia].
Qed.

Lemma get_key_escape_at (pre k tail : string) :
  ends_key tail || bad_key_escape tail = true ->
  _get_key (pre +:+ escape_key k +:+ tail) (String.length pre)
  = if ends_key tail then
      Ok (k, (String.length pre + String.length (escape_key k))%nat)
    else Raise SyntaxError.
Proof.
  intros Htail. unfold _get_key.
  pose proof (get_key_loop_escape tail k Htail pre "" []
                (S (String.length (pre +:+ escape_key k +:+ tail)))) as H.
  rewrite !str_app_nil_l in H. rewrite H.
  - destruct (ends_key tail); [|done].
    f_equal. apply pair_equal_spec. split; [done|simpl; lia].
  - done.
  - rewrite !str_length_app. lia.
Qed.

(** X1. A key written with [escape_key] is read back as it was: for
    every string [k], reading [escape_key k] at any place of a query,
    followed by the end of the query or by a control character other
    than the tilde, returns [k] and the position behind it. *)
Theorem get_key_round_trip (pre k rest : string) :
  ends_key rest = true ->
  _get_key (pre +:+ escape_key k +:+ rest) (String.length pre)
  = Ok (k, (String.length pre + String.length (escape_key k))%nat).
Proof.
  intros Hrest. rewrite get_key_escape_at by (by rewrite Hrest).
  by rewrite Hrest.
Qed.

Lemma get_key_round_trip_witness :
  _get_key "$.a~.b~~[0]" 2 = Ok ("a.b~", 8%nat).
Proof. apply (get_key_round_trip "$." "a.b~" "[0]"). reflexivity. Defined.

(** X2. In a key the tilde escapes exactly the nine control characters:
    behind any key read so far, a tilde followed by another character,
    or by the end of the query, is a syntax error. *)
Theorem get_key_bad_escape (pre k rest : string) :
  bad_key_escape rest = true ->
  _get_key (pre +:+ escape_key k +:+ rest) (String.length pre)
  = Raise SyntaxError.
Proof.
  intros Hrest. rewrite get_key_escape_at by (by rewrite Hrest, orb_true_r).
  destruct rest as [|c r]; [done|].
  destruct (Ascii.eqb_spec c "~") as [->|Hc]; [done|].
  exfalso. revert Hrest. cbn [bad_key_escape].
  destruct c as [[] [] [] [] [] [] [] []]; try done; by destruct r.
Qed.

Lemma get_key_bad_escape_witness :
  _get_key "$.a~.b~'c" 2 = Raise SyntaxError
  /\ _get_key "$.a~" 2 = Raise SyntaxError.
Proof.
  split.
  - apply (get_key_bad_escape "$." "a.b" "~'c"). reflexivity.
  - apply (get_key_bad_escape "$." "a" "~"). reflexivity.
Defined.

(** ** Quoted strings: writing and reading *)

Lemma match_str_chunk_at pre g y :
  str_forallb str_plain g = true -> span_str str_plain y = "" ->
  _match_str_chunk (pre +:+ g +:+ y) (String.length pre)
  = (g, (String.length pre + String.length g)%nat).
Proof.
  intros Hg Hy. unfold _match_str_chunk, match_pos.
  rewrite str_length_app, Nat.min_l by lia.
  rewrite str_drop_app. fold str_plain.
  by rewrite span_str_app, Hy, str_app_nil_r.
Qed.

Lemma str_get_after_end pre g :
  String.get (String.length pre + String.length g) (pre +:+ g +:+ "") = None.
Proof. by rewrite str_get_after_0. Qed.

(** The string reader on an escaped body [t] followed by [tail], which
    is the end of the input or starts with the closing quote. *)
Lemma get_str_loop_escape (tail : string) (t : string) :
  (tail = "" \/ exists rest, tail = String "'" rest) ->
  forall (pre g0 : string) (chunks : list string) (fuel : nat),
  str_forallb str_plain g0 = true ->
  (String.length (escape_str t) < fuel)%nat ->
  _get_str_loop fuel (pre +:+ g0 +:+ escape_str t +:+ tail)
    (String.length pre) chunks
  = match tail with
    | EmptyString => Raise SyntaxError
    | String _ _ =>
        Ok (str_join chunks +:+ g0 +:+ t,
            (String.length pre + String.length g0
             + String.length (escape_str t) + 1)%nat)
    end.
Proof.
  intros Htail.
  assert (span_str str_plain tail = "") as Hspan
    by (destruct Htail as [->|[rest ->]]; done).
  induction t as [|c t IH]; intros pre g0 chunks fuel Hg0 Hfuel.
  - destruct fuel as [|fuel]; [simpl in Hfuel; lia|].
    cbn [_get_str_loop escape_str]. rewrite str_app_nil_l.
    rewrite match_str_chunk_at by done.
    rewrite str_get_after_0.
    destruct Htail as [->|[rest ->]]; [done|].
    cbn [String.get Ascii.eqb Bool.eqb].
    rewrite str_join_app. unfold str_join at 2. cbn [foldr].
    rewrite !str_app_nil_r.
    f_equal. apply pair_equal_spec. split; [done|simpl; lia].
  - revert Hfuel. cbn [escape_str].
    destruct (str_plain c) eqn:Hc; cbn [String.length]; intros Hfuel.
    + replace (pre +:+ g0 +:+ String c (escape_str t) +:+ tail)
        with (pre +:+ (g0 +:+ String c "") +:+ escape_str t +:+ tail)
        by (by rewrite !str_app_assoc).
      rewrite IH.
      * destruct tail; [done|].
        rewrite !str_app_assoc, str_length_app. simpl.
        rewrite !str_app_cons, str_app_nil_l.
        f_equal. apply pair_equal_spec. split; [done|lia].
      * rewrite str_forallb_app, Hg0. simpl. by rewrite Hc.
      * lia.
    + destruct fuel as [|fuel]; [lia|]. cbn [_get_str_loop].
      assert (span_str str_plain
                (String "~" (String c (escape_str t)) +:+ tail) = "")
        as Hstop by done.
      rewrite !str_app_cons.
      rewrite match_str_chunk_at by done.
      rewrite str_get_after_0. cbn [String.get Ascii.eqb Bool.eqb].
      rewrite str_get_after_1. cbn [String.get].
      assert (char_in c str_escapes = true) as ->.
      { unfold str_plain in Hc. by apply negb_false_iff in Hc. }
      cbn [negb].
      replace (pre +:+ g0 +:+ String "~" (String c (escape_str t +:+ tail)))
        with ((pre +:+ g0 +:+ String "~" (String c "")) +:+ ""
              +:+ escape_str t +:+ tail)
        by (by rewrite !str_app_assoc).
      replace (S (S (String.length pre + String.length g0)))
        with (String.length (pre +:+ g0 +:+ String "~" (String c "")))
        by (rewrite !str_length_app; simpl; lia).
      rewrite IH; [|done|lia].
      destruct tail; [done|].
      rewrite !str_join_app. unfold str_join at 2 3. cbn [foldr].
      rewrite !str_app_nil_r, !str_length_app, !str_app_assoc. simpl.
      f_equal. apply pair_equal_spec. split; [done|lia].
Qed.

(** X3. A string written between quotes with [escape_str] is read back
    as it was, by the string reader and by the literal reader, whatever
    follows the closing quote. *)
Theorem get_str_round_trip (pre t rest : string) :
  _get_str (pre +:+ escape_str t +:+ String "'" rest) (String.length pre)
  = Ok (t, (String.length pre + String.length (escape_str t) + 1)%nat)
  /\ _get_value (String "'" (escape_str t +:+ String "'" rest)) 0
     = Ok (PStr t, (String.length (escape_str t) + 2)%nat).
Proof.
  assert (forall pre,
    _get_str (pre +:+ escape_str t +:+ String "'" rest) (String.length pre)
    = Ok (t, (String.length pre + String.length (escape_str t) + 1)%nat))
    as Hstr.
  { clear pre. intros pre. unfold _get_str.
    pose proof (get_str_loop_escape (String "'" rest) t
                  ltac:(right; eauto) pre "" []
                  (S (String.length
                        (pre +:+ escape_str t +:+ String "'" rest)))) as H.
    rewrite !str_app_nil_l in H. rewrite H.
    - f_equal. apply pair_equal_spec. split; [done|simpl; lia].
    - done.
    - rewrite !str_length_app. lia. }
  split; [apply Hstr|].
  unfold _get_value. cbn [String.get Ascii.eqb Bool.eqb].
  specialize (Hstr "'"). rewrite str_app_cons, str_app_nil_l in Hstr.
  cbn [String.length] in Hstr. rewrite Hstr. cbn [mbind res_bind].
  f_equal. apply pair_equal_spec. split; [done|lia].
Qed.

(** X4. A quoted string without its closing quote is a syntax error:
    whatever the body, when the input ends behind it. *)
Theorem get_str_unterminated (pre t : string) :
  _get_str (pre +:+ escape_str t) (String.length pre) = Raise SyntaxError
  /\ _get_value (String "'" (escape_str t)) 0 = Raise SyntaxError.
Proof.
  assert (forall pre,
    _get_str (pre +:+ escape_str t) (String.length pre) = Raise SyntaxError)
    as Hstr.
  { clear pre. intros pre. unfold _get_str.
    pose proof (get_str_loop_escape "" t ltac:(by left) pre "" []
                  (S (String.length (pre +:+ escape_str t)))) as H.
    rewrite !str_app_nil_l, !str_app_nil_r in H. rewrite H; [done..|].
    rewrite !str_length_app. lia. }
  split; [apply Hstr|].
  unfold _get_value. cbn [String.get Ascii.eqb Bool.eqb].
  specialize (Hstr "'"). rewrite str_app_cons, str_app_nil_l in Hstr.
  cbn [String.length] in Hstr. by rewrite Hstr.
Qed.

(** ** The entry symbols *)

(** The first character of a key that starts with a plain character is
    the character of the query where the reader started. *)
Lemma get_key_head (s : string) (p : nat) (c : ascii) (k : string) (e : nat) :
  key_plain c = true -> (p <= String.length s)%nat ->
  _get_key s p = Ok (k, e) -> String.get 0 k = Some c ->
  String.get p s = Some c.
Proof.
  intros Hc Hp. unfold _get_key. cbn [_get_key_loop].
  pose proof (match_key_chunk_bounds s p) as Hb.
  assert (forall t, String.get 0 ((_match_key_chunk s p).1 +:+ t) = Some c ->
                    (_match_key_chunk s p).1 <> "" \/ String.get 0 t = Some c)
    as Hsplit.
  { intros t. destruct (_match_key_chunk s p).1; [by right|by left]. }
  assert ((_match_key_chunk s p).1 <> "" ->
          forall t, String.get p s
                    = String.get 0 ((_match_key_chunk s p).1 +:+ t)) as Hhead.
  { unfold _match_key_chunk, match_pos. cbn [fst]. rewrite Nat.min_l by done.
    clear. revert p. induction s as [|a s IH]; intros p Hne t.
    - by destruct p.
    - destruct p as [|p]; [|by apply IH].
      cbn [str_drop span_str] in *. by destruct (negb (char_in a key_ctrl)). }
  destruct (_match_key_chunk s p) as [g end1]. cbn [fst snd] in *.
  destruct (negb (String.eqb (slice_str s end1 1) "~")).
  { intros [= <- <-] Hk. unfold str_join in Hk. cbn [app foldr] in Hk.
    destruct (Hsplit "" Hk) as [Hne|?]; [|done]. by rewrite (Hhead Hne ""), Hk. }
  destruct (String.get (S end1) s) as [esc|] eqn:He; [|done].
  destruct (negb (char_in esc key_escapes)) eqn:Hesc; [done|].
  apply str_get_Some_lt in He.
  destruct (get_key_loop_outcome (String.length s) s (S (S end1))
              (([] ++ [g]) ++ [String esc ""])) as [(t & e' & ->)| ->];
    [lia..| |done].
  intros [= <- <-]. rewrite !str_app_assoc. intros Hk.
  destruct (Hsplit _ Hk) as [Hne|Hk']; [rewrite <- Hk; by apply Hhead|].
  rewrite str_app_cons in Hk'. cbn [String.get] in Hk'. injection Hk' as ->.
  apply negb_false_iff in Hesc. unfold key_plain in Hc.
  apply negb_true_iff in Hc. unfold key_escapes in Hesc. unfold key_ctrl in Hc.
  congruence.
Qed.

(** The key reader returns or raises a syntax error. *)
Lemma get_key_total (s : string) (p : nat) :
  (p <= String.length s)%nat ->
  (exists k e, _get_key s p = Ok (k, e)) \/ _get_key s p = Raise SyntaxError.
Proof.
  intros Hp. unfold _get_key.
  destruct (get_key_loop_outcome (S (String.length s)) s p [])
    as [(t & e & ->)| ->]; [lia..|eauto|eauto].
Qed.

(** Where the query has another character than the plain symbol [c],
    the key reader raises or returns a key other than [c]. *)
Lemma get_key_not_symbol (s : string) (p : nat) (c : ascii) :
  key_plain c = true -> (p <= String.length s)%nat ->
  String.get p s <> Some c ->
  _get_key s p = Raise SyntaxError
  \/ exists k e, _get_key s p = Ok (k, e)
                 /\ String.eqb k (String c "") = false.
Proof.
  intros Hc Hp Hs.
  destruct (get_key_total s p Hp) as [(k & e & Hk)| ->]; [|by left].
  right. exists k, e. split; [done|].
  destruct (String.eqb_spec k (String c "")) as [->|]; [|done].
  exfalso. apply Hs. by eapply get_key_head.
Qed.

(** X5. A path starts with the symbol [$]: on every document, with or
    without slices, a query whose first character is another one, and
    the empty query, are syntax errors. *)
Theorem traverser_needs_root_symbol
    (h : heap) (nodes : list node) (s : string) (allow_slice : bool) :
  String.get 0 s <> Some "$"%char ->
  _traverser h nodes s allow_slice = Raise SyntaxError.
Proof.
  intros Hs. unfold _traverser.
  destruct (get_key_not_symbol s 0 "$" eq_refl ltac:(lia) Hs)
    as [->|(k & e & -> & Hk)]; [done|].
  cbn [mbind res_bind]. by rewrite Hk.
Qed.

Lemma traverser_needs_root_symbol_witness :
  _traverser doc_10_20_30 [(0%nat, KInt 0)] "[0]" false = Raise SyntaxError
  /\ _traverser doc_10_20_30 [(0%nat, KInt 0)] "" true = Raise SyntaxError.
Proof.
  split; apply traverser_needs_root_symbol; discriminate.
Defined.

(** X6. A filter starts with the symbol [@], or with [!@]: on every
    node list, a filter query whose first character is neither [@] nor
    [!], and one with [!] not followed by [@], are syntax errors. *)
Theorem filter_needs_current_symbol
    (fuel : nat) (h : heap) (nodes : list node) (s : string) (p : nat) :
  (p <= String.length s)%nat ->
  String.get p s <> Some "@"%char ->
  (String.get p s = Some "!"%char -> String.get (S p) s <> Some "@"%char) ->
  _filter_nodes (S fuel) h nodes s p = Raise SyntaxError.
Proof.
  intros Hp Hat Hneg. rewrite filter_nodes_S.
  destruct (String.eqb (slice_str s p 1) "!") eqn:Hbang.
  - pose proof (slice_str_char _ _ _ Hbang) as Hlen.
    assert (String.get p s = Some "!"%char) as Hget.
    { apply String.eqb_eq in Hbang. revert Hbang. unfold slice_str.
      clear. revert p. induction s as [|a s IH]; intros p.
      - by destruct p.
      - destruct p as [|p]; [|by apply IH].
        simpl. intros [= ->]. done. }
    destruct (get_key_not_symbol s (S p) "@" eq_refl ltac:(lia) (Hneg Hget))
      as [->|(k & e & -> & Hk)]; [done|].
    cbn [mbind res_bind]. by rewrite Hk.
  - destruct (get_key_not_symbol s p "@" eq_refl Hp Hat)
      as [->|(k & e & -> & Hk)]; [done|].
    cbn [mbind res_bind]. by rewrite Hk.
Qed.

Lemma filter_needs_current_symbol_witness :
  _filter_nodes (query_fuel "$==0") doc_zero node_zero "$==0" 0
  = Raise SyntaxError.
Proof.
  apply (filter_needs_current_symbol 4 doc_zero node_zero "$==0" 0);
    [simpl; lia|discriminate|discriminate].
Defined.

(** ** What a filter keeps *)

Lemma rfilterM_sublist {A} (p : A -> res bool) (l l' : list A) :
  rfilterM p l = Ok l' -> sublist l' l.
Proof.
  revert l'. induction l as [|x l IH]; intros l' H; cbn [rfilterM] in H.
  - by inv H.
  - bind_step H as b Hb. destruct b.
    + bind_step H as ys Hys. inv H. apply sublist_skip. by apply IH.
    + apply sublist_cons. by apply IH.
Qed.

Lemma zip_fst_sublist {A B} (l : list A) (k : list B) :
  sublist (zip l k).*1 l.
Proof.
  revert k. induction l as [|x l IH]; intros [|y k]; cbn;
    [done|done|apply sublist_nil_l|by apply sublist_skip].
Qed.

Lemma present_pairs_sublist h negate_filter zipped ps :
  present_pairs h negate_filter zipped = Ok ps -> sublist ps.*1 zipped.*1.
Proof.
  revert ps. induction zipped as [|[n [target k]] zipped IH]; intros ps H;
    cbn [present_pairs] in H.
  - by inv H.
  - bind_step H as present Hp.
    destruct (negb (Bool.eqb present negate_filter)).
    + bind_step H as v Hv. bind_step H as ps' Hps. inv H.
      cbn. apply sublist_skip. by apply IH.
    + cbn. apply sublist_cons. by apply IH.
Qed.

(** A negated presence test keeps no pair: a node whose key is absent
    would have its missing item read. *)
Lemma present_pairs_negated h zipped ps :
  present_pairs h true zipped = Ok ps -> ps = [].
Proof.
  revert ps. induction zipped as [|[n [target k]] zipped IH]; intros ps H;
    cbn [present_pairs] in H.
  - by inv H.
  - bind_step H as present Hp. destruct present; cbn in H; [by apply IH|].
    exfalso. bind_step H as v Hv. clear H IH.
    unfold has_key in Hp. unfold getitem in Hv.
    destruct (deref h target) as [[l|d]| |]; cbn in Hp, Hv; [| |done..].
    + destruct k as [i|s|]; [|done..]. inv Hp.
      unfold norm_index in Hv. rename H0 into Hp.
      destruct (i <? 0) eqn:Hneg.
      * destruct ((0 <=? i + list_len l) && (i + list_len l <? list_len l))
          eqn:Hin; [|done].
        apply andb_true_iff in Hin as [Hlo _].
        apply andb_false_iff in Hp as [Hp|Hp]; lia.
      * destruct ((0 <=? i) && (i <? list_len l)) eqn:Hin; [|done].
        apply andb_true_iff in Hin as [Hlo Hhi].
        apply andb_false_iff in Hp as [Hp|Hp]; unfold list_len in *; lia.
    + destruct k as [i|s|]; [done| |done]. inv Hp.
      apply bool_decide_eq_false in H0.
      destruct (dict_get d s); [|done]. destruct H0. eauto.
Qed.

Lemma filter_nodes_sublist fuel : forall h nodes s p ns e,
  _filter_nodes fuel h nodes s p = Ok (ns, e) -> sublist ns nodes.
Proof.
  induction fuel as [|fuel IH]; intros h nodes s p ns e H; [done|].
  rewrite filter_nodes_S in H.
  bind_step H as [k end1] Hkey.
  destruct (negb (String.eqb k "@")); [done|].
  bind_step H as [fnodes end2] Htrav.
  bind_step H as pairs Hpairs.
  apply present_pairs_sublist in Hpairs.
  assert (sublist pairs.*1 nodes) as Hsub
    by (etrans; [exact Hpairs|apply zip_fst_sublist]).
  destruct (_get_operator s end2) as [op end3].
  bind_step H as [nodes1 end4] Hcmp.
  assert (sublist nodes1 nodes) as Hsub1.
  { destruct op as [op|]; [|by simplify_eq/=].
    destruct (String.eqb (slice_str s p 1) "!"); [done|].
    destruct (negb (String.eqb (slice_str s end3 1) "@")).
    - bind_step Hcmp as [v e4] Hval. bind_step Hcmp as kept Hkept.
      simplify_eq/=. apply rfilterM_sublist in Hkept.
      etrans; [|exact Hsub]. by apply fmap_sublist.
    - bind_step Hcmp as [k2 e4] Hkey2.
      destruct (negb (String.eqb k2 "@")); [done|].
      bind_step Hcmp as [f2 e5] Htrav2.
      bind_step Hcmp as kept Hkept. simplify_eq/=.
      apply rfilterM_sublist in Hkept.
      etrans; [|exact Hsub]. apply fmap_sublist.
      etrans; [by apply fmap_sublist|]. apply zip_fst_sublist. }
  destruct (negb (String.eqb (slice_str s end4 2) "&&")); [by simplify_eq/=|].
  etrans; [|exact Hsub1]. by eapply IH.
Qed.

(** X7. A filter only removes nodes: the nodes it returns are nodes it
    was given, in the order it was given them, whatever the query and
    the number of conditions joined by [&&]. *)
Theorem filter_keeps_sublist
    (h : heap) (nodes : list node) (s : string) (p : nat)
    (ns : list node) (e : nat) :
  _filter_nodes (query_fuel s) h nodes s p = Ok (ns, e) ->
  sublist ns nodes.
Proof. apply filter_nodes_sublist. Qed.

Lemma filter_keeps_sublist_witness :
  sublist [(0%nat, KInt 0); (0%nat, KInt 2)]
          (index_nodes 0%nat [0; 1; 2]%nat).
Proof.
  apply (filter_keeps_sublist doc_10_20_30 _ "@!=20" 0 _ 5%nat).
  vm_compute. reflexivity.
Defined.

(** X8. A filter that starts with [!] keeps no node: if the key is
    present the node is dropped, and if it is absent the missing item
    is read, which raises; so whenever such a filter returns, it returns
    the empty list, also in front of further conditions. *)
Theorem negated_filter_keeps_nothing
    (h : heap) (nodes : list node) (s : string) (p : nat)
    (ns : list node) (e : nat) :
  String.eqb (slice_str s p 1) "!" = true ->
  _filter_nodes (query_fuel s) h nodes s p = Ok (ns, e) ->
  ns = [].
Proof.
  intros Hbang H. unfold query_fuel in H. rewrite filter_nodes_S in H.
  rewrite Hbang in H.
  bind_step H as [k end1] Hkey.
  destruct (negb (String.eqb k "@")); [done|].
  bind_step H as [fnodes end2] Htrav.
  bind_step H as pairs Hpairs.
  apply present_pairs_negated in Hpairs. subst pairs.
  destruct (_get_operator s end2) as [[op|] end3]; [done|].
  cbn in H.
  destruct (negb (String.eqb (slice_str s end3 2) "&&")); [by simplify_eq/=|].
  apply filter_nodes_sublist in H. by apply sublist_nil_r in H.
Qed.

Lemma negated_filter_keeps_nothing_witness :
  _filter_nodes (query_fuel "!@") doc_zero node_zero "!@" 0
  = Ok ([], 2%nat)
  /\ @nil node = [].
Proof.
  split; [vm_compute; reflexivity|].
  apply (negated_filter_keeps_nothing doc_zero node_zero "!@" 0 [] 2%nat);
    vm_compute; reflexivity.
Defined.

(** ** One node for one node *)

Lemma get_targets_single h n ts :
  is_slice n.2 = false -> _get_targets h n = Ok ts -> length ts = 1%nat.
Proof.
  destruct n as [target k]. cbn [snd]. intros Hk H. unfold _get_targets in H.
  bind_step H as u Hcheck. bind_step H as targets Htargets.
  destruct k as [i|s|]; [| |done];
    bind_step Htargets as v Hv; inv Htargets;
    destruct v; by inv H.
Qed.

Lemma step_nodes_length h nodes k ns :
  Forall (fun n : node => is_slice n.2 = false) nodes ->
  step_nodes h nodes k = Ok ns ->
  length ns = length nodes /\ Forall (fun n : node => n.2 = k) ns.
Proof.
  intros Hnodes H. unfold step_nodes in H. bind_step H as targets Ht. inv H.
  rewrite length_fmap. split; [|by apply Forall_fmap, Forall_true].
  revert targets Ht. induction Hnodes as [|n nodes Hn Hnodes IH];
    intros targets Ht; cbn [rmapM] in Ht.
  - by inv Ht.
  - bind_step Ht as ts Hts. bind_step Ht as tss Htss. inv Ht.
    cbn [concat]. rewrite length_app, (IH tss) by done.
    by rewrite (get_targets_single h n ts).
Qed.

Lemma bracket_key_single s m k e :
  bracket_key s m true = Ok (k, e) -> is_slice k = false.
Proof.
  unfold bracket_key. destruct (_get_idx m) as [idx e1].
  destruct (negb (String.eqb (slice_str s e1 1) ":")); [|done].
  by intros [= <- <-].
Qed.

Lemma traverse_single_length fuel : forall h nodes s p a ns e,
  Forall (fun n : node => is_slice n.2 = false) nodes ->
  _traverse fuel h nodes s p a true = Ok (ns, e) ->
  length ns = length nodes.
Proof.
  induction fuel as [|fuel IH]; intros h nodes s p a ns e Hnodes H; [done|].
  rewrite traverse_S in H.
  destruct (String.eqb (slice_str s p 1) ".").
  { bind_step H as [k end1] Hkey. bind_step H as nodes1 Hstep.
    apply step_nodes_length in Hstep as [<- Hkeys]; [|done].
    eapply IH; [|exact H].
    eapply Forall_impl; [exact Hkeys|]. by intros n ->. }
  destruct (String.eqb (slice_str s p 1) "[").
  { bind_step H as [nodes1 end1] Hgroup.
    destruct (String.get end1 s) as [t|]; [|done].
    destruct (negb (Ascii.eqb t "]")); [done|].
    destruct (_match_idx s (S p)) as [m|]; [|done].
    bind_step Hgroup as [k e2] Hk. bind_step Hgroup as nodes2 Hstep.
    simplify_eq/=. apply bracket_key_single in Hk.
    apply step_nodes_length in Hstep as [<- Hkeys]; [|done].
    eapply IH; [|exact H].
    eapply Forall_impl; [exact Hkeys|]. by intros n ->. }
  bind_step H as us Hcheck. by simplify_eq/=.
Qed.

(** X9. The relative path of a filter keeps one node for one node: from
    nodes without slice keys, as the wildcard and the root produce them,
    a traversal in single mode that returns, returns as many nodes as it
    was given.  This is what lets the filter pair its candidates with
    the nodes of their relative paths. *)
Theorem single_traversal_keeps_length
    (h : heap) (nodes : list node) (s : string) (p : nat)
    (allow_slice : bool) (ns : list node) (e : nat) :
  Forall (fun n : node => is_slice n.2 = false) nodes ->
  _traverse (query_fuel s) h nodes s p allow_slice true = Ok (ns, e) ->
  length ns = length nodes.
Proof. apply traverse_single_length. Qed.

Lemma single_traversal_keeps_length_witness :
  length [(1%nat, KStr "a"); (1%nat, KStr "a")]
  = length (index_nodes 0%nat [0; 1]%nat).
Proof.
  apply (single_traversal_keeps_length
           [PList [PRef 1%nat; PRef 1%nat]; PDict [("a", PInt 7)]]
           _ "@.a<9" 1 false _ 3%nat).
  - repeat constructor.
  - vm_compute. reflexivity.
Defined.

(** ** Operations on the whole document *)

Lemma patch_single (h : heap) (obj : pyval) (o : operation)
    (r : res ()) (h' : heap) :
  patch_operation (length h) [(length h, KInt 0)] (h ++ [PList [obj]]) o
  = (r, h') ->
  patch h obj (inl o)
  = match r with
    | Ok _ => (getitem h' (length h) (KInt 0), h')
    | Raise e => (Raise e, h')
    | Stuck => (Stuck, h')
    end.
Proof.
  intros H. unfold patch. cbn [for_each]. rewrite H. by destruct r.
Qed.

Lemma wrapper_lookup (h : heap) (obj : pyval) :
  (h ++ [PList [obj]]) !! length h = Some (PList [obj]).
Proof. by apply list_lookup_middle. Qed.

Lemma getitem_wrapper (h : heap) (root : addr) (obj : pyval) :
  h !! root = Some (PList [obj]) -> getitem h root (KInt 0) = Ok obj.
Proof. intros H. unfold getitem, deref. by rewrite H. Qed.

(** The loop of an operation over the single node of the path [$]. *)
Lemma for_root_node (h : heap) (root : addr) (items : list pyval)
    (allow_slice : bool) (body : heap -> node -> res heap) :
  h !! root = Some (PList items) ->
  for_nodes h (_traverser h [(root, KInt 0)] "$" allow_slice) body
  = lift h (body h (root, KInt 0)).
Proof.
  intros Hroot. rewrite (traverser_root h root items) by done.
  cbn [for_nodes for_each]. by destruct (body h (root, KInt 0)).
Qed.

Lemma setitem_index (h : heap) (a : addr) (l : list pyval) (i : nat)
    (v : pyval) :
  h !! a = Some (PList l) -> (i < length l)%nat ->
  setitem h a (KInt (Z.of_nat i)) v = Ok (<[a := PList (<[i := v]> l)]> h).
Proof.
  intros Ha Hi. unfold setitem, deref. rewrite Ha. cbn [mbind res_bind].
  unfold list_len. by rewrite norm_index_nat.
Qed.

(** X10. [set] on the path [$] replaces the document: the call returns
    the value, whatever the document was, and no object of the heap is
    written: only the root wrapper holds the new value. *)
Theorem set_root_replaces_document
    (h : heap) (obj v : pyval) (e : option string) :
  patch h obj (inl (Operation "set" "$" (Some v) e))
  = (Ok v, h ++ [PList [v]]).
Proof.
  erewrite patch_single; last first.
  { unfold patch_operation.
    cbn [op path value expr String.eqb Ascii.eqb Bool.eqb read_field].
    rewrite (for_root_node _ _ [obj]) by apply wrapper_lookup.
    rewrite (setitem_index _ _ [obj] 0 v)
      by (apply wrapper_lookup || (simpl; lia)).
    cbn [lift]. rewrite insert_app_r_alt, Nat.sub_diag by done.
    reflexivity. }
  cbn. by rewrite (getitem_wrapper _ _ v) by apply wrapper_lookup.
Qed.

Lemma as_list_inv (h : heap) (v : pyval) (a : addr) (l : list pyval) :
  as_list h v = Ok (a, l) -> v = PRef a /\ h !! a = Some (PList l).
Proof.
  destruct v as [| | | | |b]; try done. unfold as_list, deref.
  destruct (h !! b) as [[l'|d]|] eqn:Hb; try done. by intros [= <- <-].
Qed.

Lemma as_list_ref (h : heap) (a : addr) (l : list pyval) :
  h !! a = Some (PList l) -> as_list h (PRef a) = Ok (a, l).
Proof. intros Ha. unfold as_list, deref. by rewrite Ha. Qed.

(** What is not a list in a heap is not a list when the root wrapper
    has been allocated behind it. *)
Lemma as_list_error_wrapper (h : heap) (obj v : pyval) :
  as_list h v = Raise TypeError ->
  as_list (h ++ [PList [obj]]) v = Raise TypeError.
Proof.
  destruct v as [| | | | |b]; try done. unfold as_list, deref.
  destruct (h !! b) as [[l'|d]|] eqn:Hb; try done.
  by rewrite (lookup_app_l_Some _ _ _ _ Hb).
Qed.

Section root_steps.
Context (g : heap) (root a : addr) (l : list pyval).
Hypothesis Hroot : g !! root = Some (PList [PRef a]).
Hypothesis Ha : g !! a = Some (PList l).

Lemma append_root_step (v : pyval) (e : option string) :
  patch_operation root [(root, KInt 0)] g (Operation "append" "$" (Some v) e)
  = (Ok (), <[a := PList (l ++ [v])]> g).
Proof.
  unfold patch_operation.
  cbn [op path value expr String.eqb Ascii.eqb Bool.eqb read_field].
  rewrite (for_root_node _ _ [PRef a]) by done.
  rewrite (getitem_wrapper _ _ (PRef a)) by done. cbn [mbind res_bind].
  by rewrite (as_list_ref g a l).
Qed.

Lemma reverse_root_step (v : option pyval) (e : option string) :
  patch_operation root [(root, KInt 0)] g (Operation "reverse" "$" v e)
  = (Ok (), <[a := PList (rev l)]> g).
Proof.
  unfold patch_operation.
  cbn [op path value expr String.eqb Ascii.eqb Bool.eqb read_field].
  rewrite (for_root_node _ _ [PRef a]) by done.
  rewrite (getitem_wrapper _ _ (PRef a)) by done. cbn [mbind res_bind].
  by rewrite (as_list_ref g a l).
Qed.

Lemma extend_root_step (v : pyval) (vs : list pyval) (e : option string) :
  iter_value g v = Ok vs ->
  patch_operation root [(root, KInt 0)] g (Operation "extend" "$" (Some v) e)
  = (Ok (), <[a := PList (l ++ vs)]> g).
Proof.
  intros Hvs. unfold patch_operation.
  cbn [op path value expr String.eqb Ascii.eqb Bool.eqb read_field].
  rewrite (for_root_node _ _ [PRef a]) by done.
  rewrite (getitem_wrapper _ _ (PRef a)) by done. cbn [mbind res_bind].
  rewrite (as_list_ref g a l) by done. cbn [mbind res_bind].
  by rewrite Hvs.
Qed.
End root_steps.

(** A list operation on the path [$] of a document that is no list. *)
Lemma list_op_root_type_error (g : heap) (root : addr) (obj : pyval)
    (v : pyval) (v0 : option pyval) (e : option string) :
  g !! root = Some (PList [obj]) ->
  as_list g obj = Raise TypeError ->
  patch_operation root [(root, KInt 0)] g (Operation "append" "$" (Some v) e)
  = (Raise TypeError, g)
  /\ patch_operation root [(root, KInt 0)] g
       (Operation "extend" "$" (Some v) e)
     = (Raise TypeError, g)
  /\ patch_operation root [(root, KInt 0)] g (Operation "reverse" "$" v0 e)
     = (Raise TypeError, g).
Proof.
  intros Hroot Hobj. unfold patch_operation.
  cbn [op path value expr String.eqb Ascii.eqb Bool.eqb read_field].
  rewrite !(for_root_node _ _ [obj]) by done.
  rewrite !(getitem_wrapper _ _ obj) by done. cbn [mbind res_bind].
  by rewrite Hobj.
Qed.

Lemma iter_value_wrapper (h : heap) (x : pyobj) (v : pyval)
    (vs : list pyval) :
  iter_value h v = Ok vs -> iter_value (h ++ [x]) v = Ok vs.
Proof.
  destruct v as [| | | | |b]; try done. unfold iter_value, deref.
  destruct (h !! b) as [o|] eqn:Hb; [|done].
  by rewrite (lookup_app_l_Some _ _ _ _ Hb).
Qed.

Lemma wrapper_after_write (h : heap) (obj : pyval) (a : addr) (o o' : pyobj) :
  h !! a = Some o ->
  <[a := o']> (h ++ [PList [obj]]) = <[a := o']> h ++ [PList [obj]]
  /\ getitem (<[a := o']> h ++ [PList [obj]]) (length h) (KInt 0) = Ok obj.
Proof.
  intros Ha. apply lookup_lt_Some in Ha. split.
  - by rewrite insert_app_l.
  - apply getitem_wrapper.
    rewrite <- (length_insert h a o'). apply wrapper_lookup.
Qed.

(** X11. [append] on the path [$] puts the value behind the items of a
    document that is a list, in place; on any other document it raises
    [TypeError] and writes nothing. *)
Theorem append_root
    (h : heap) (obj v : pyval) (e : option string) :
  (forall a l, as_list h obj = Ok (a, l) ->
     patch h obj (inl (Operation "append" "$" (Some v) e))
     = (Ok obj, <[a := PList (l ++ [v])]> h ++ [PList [obj]]))
  /\ (as_list h obj = Raise TypeError ->
      patch h obj (inl (Operation "append" "$" (Some v) e))
      = (Raise TypeError, h ++ [PList [obj]])).
Proof.
  split.
  - intros a l [-> Ha]%as_list_inv.
    erewrite patch_single; last first.
    { apply (append_root_step _ _ a l); [apply wrapper_lookup|].
      by apply lookup_app_l_Some. }
    cbn. destruct (wrapper_after_write h (PRef a) a _ (PList (l ++ [v])) Ha)
      as [-> ->]. done.
  - intros Hobj.
    destruct (list_op_root_type_error (h ++ [PList [obj]]) (length h) obj
                v None e (wrapper_lookup h obj)
                (as_list_error_wrapper h obj obj Hobj)) as (H & _ & _).
    by rewrite (patch_single _ _ _ _ _ H).
Qed.

Lemma append_root_witness :
  patch doc_10_20_30 (PRef 0%nat)
    (inl (Operation "append" "$" (Some (PInt 40)) None))
  = (Ok (PRef 0%nat),
     [PList [PInt 10; PInt 20; PInt 30; PInt 40]; PList [PRef 0%nat]])
  /\ patch doc_10_20_30 (PInt 5)
       (inl (Operation "append" "$" (Some (PInt 40)) None))
     = (Raise TypeError, doc_10_20_30 ++ [PList [PInt 5]]).
Proof.
  destruct (append_root doc_10_20_30 (PRef 0%nat) (PInt 40) None) as [H1 _].
  destruct (append_root doc_10_20_30 (PInt 5) (PInt 40) None) as [_ H2].
  split; [apply (H1 0%nat [PInt 10; PInt 20; PInt 30]); reflexivity|].
  apply H2. reflexivity.
Defined.

(** ** The wildcard and the whole slice *)

Ltac eval_closed t := let v := eval vm_compute in t in change t with v.

Lemma traverser_wildcard_unfold g nodes allow :
  _traverser g nodes "$[@]" allow =
   (nodes1 ← expand_nodes g nodes;
    _ ← rmapM (fun n : node => _check_key g n.1 n.2 false) nodes1;
    pairs ← present_pairs g false (zip nodes1 nodes1);
    _ ← rmapM (fun n : node => _check_key g n.1 n.2 allow) pairs.*1;
    Ok pairs.*1).
Proof.
  unfold _traverser. eval_closed (_get_key "$[@]" 0).
  cbn [mbind res_bind]. eval_closed (String.eqb "$" "$"). cbn [negb].
  eval_closed (query_fuel "$[@]"). eval_closed (String.length "$[@]").
  rewrite traverse_S. eval_closed (slice_str "$[@]" 1 1).
  eval_closed (String.eqb "[" "."). eval_closed (String.eqb "[" "[").
  cbn iota. eval_closed (_match_idx "$[@]" 2).
  destruct (expand_nodes g nodes) as [nodes1| |]; [|done..].
  cbn [mbind res_bind]. rewrite filter_nodes_S.
  eval_closed (slice_str "$[@]" 2 1). eval_closed (String.eqb "@" "!").
  cbn iota. eval_closed (_get_key "$[@]" 2). cbn [mbind res_bind].
  eval_closed (String.eqb "@" "@"). cbn [negb].
  rewrite traverse_S. eval_closed (slice_str "$[@]" 3 1).
  eval_closed (String.eqb "]" "."). eval_closed (String.eqb "]" "[").
  cbn iota.
  destruct (rmapM _ nodes1) as [us| |]; [|done..]. cbn [mbind res_bind].
  destruct (present_pairs g false (zip nodes1 nodes1)) as [pairs| |];
    [|done..].
  cbn [mbind res_bind]. eval_closed (_get_operator "$[@]" 3).
  cbn [mbind res_bind]. eval_closed (slice_str "$[@]" 3 2).
  eval_closed (String.eqb "]" "&&"). cbn [negb mbind res_bind].
  eval_closed (String.get 3 "$[@]"). eval_closed (Ascii.eqb "]" "]").
  cbn [negb]. rewrite traverse_S. eval_closed (slice_str "$[@]" 4 1).
  eval_closed (String.eqb "" "."). eval_closed (String.eqb "" "[").
  cbn iota.
  destruct (rmapM _ pairs.*1) as [us'| |]; [|done..]. cbn [mbind res_bind].
  done.
Qed.

Lemma traverser_whole_slice_unfold g nodes :
  _traverser g nodes "$[start:end]" true =
   (nodes1 ← step_nodes g nodes (KSlice (- maxsize - 1) maxsize None);
    _ ← rmapM (fun n : node => _check_key g n.1 n.2 true) nodes1;
    Ok nodes1).
Proof.
  unfold _traverser. eval_closed (_get_key "$[start:end]" 0).
  cbn [mbind res_bind]. eval_closed (String.eqb "$" "$"). cbn [negb].
  eval_closed (query_fuel "$[start:end]").
  eval_closed (String.length "$[start:end]").
  rewrite traverse_S. eval_closed (slice_str "$[start:end]" 1 1).
  eval_closed (String.eqb "[" "."). eval_closed (String.eqb "[" "[").
  cbn iota. eval_closed (_match_idx "$[start:end]" 2). cbn iota.
  change (bracket_key "$[start:end]" ("start", 7%nat) false)
    with (@Ok (key * nat) (KSlice (- maxsize - 1) maxsize None, 11%nat)).
  cbn [mbind res_bind].
  destruct (step_nodes g nodes _) as [nodes1| |]; [|done..].
  cbn [mbind res_bind].
  eval_closed (String.get 11 "$[start:end]"). eval_closed (Ascii.eqb "]" "]").
  cbn [negb]. rewrite traverse_S. eval_closed (slice_str "$[start:end]" 12 1).
  eval_closed (String.eqb "" "."). eval_closed (String.eqb "" "[").
  cbn iota.
  destruct (rmapM _ nodes1) as [us| |]; [|done..]. done.
Qed.

Lemma check_nodes_ok g allow (ns : list node) :
  Forall (fun n => kind_ok g allow n = true) ns ->
  exists us, rmapM (fun n : node => _check_key g n.1 n.2 allow) ns = Ok us.
Proof.
  induction 1 as [|[t k] ns Hn Hns [us IH]]; [by exists []|].
  apply check_key_kind_ok in Hn. cbn [rmapM fst snd].
  rewrite Hn, IH. by eexists.
Qed.

Lemma present_pairs_all g (ns : list node) :
  Forall (fun n : node => has_key g n.1 n.2 = Ok true
                          /\ exists v, getitem g n.1 n.2 = Ok v) ns ->
  exists ps, present_pairs g false (zip ns ns) = Ok ps /\ ps.*1 = ns.
Proof.
  induction 1 as [|[t k] ns [Hn [v Hv]] Hns (ps & IH & Hps)]; [by exists []|].
  cbn [fst snd] in *. cbn [zip zip_with present_pairs].
  rewrite Hn. cbn [mbind res_bind Bool.eqb negb]. rewrite Hv, IH.
  cbn [mbind res_bind]. eexists. split; [done|]. cbn. by rewrite Hps.
Qed.

Section wildcard.
Context (g : heap) (root a : addr).
Hypothesis Hroot : g !! root = Some (PList [PRef a]).

Lemma get_targets_root : _get_targets g (root, KInt 0) = Ok [a].
Proof.
  unfold _get_targets, _check_key, deref. rewrite Hroot.
  cbn [mbind res_bind andb negb is_str is_int].
  by rewrite (getitem_wrapper g root (PRef a)).
Qed.

Lemma step_nodes_root (k : key) :
  step_nodes g [(root, KInt 0)] k = Ok [(a, k)].
Proof. unfold step_nodes. cbn [rmapM]. by rewrite get_targets_root. Qed.

Lemma expand_nodes_root :
  expand_nodes g [(root, KInt 0)] = wildcard_nodes g a.
Proof.
  unfold expand_nodes. cbn [rmapM]. rewrite get_targets_root.
  cbn [mbind res_bind concat app rmapM].
  destruct (wildcard_nodes g a) as [ns| |]; [|done..].
  cbn [mbind res_bind concat]. by rewrite app_nil_r.
Qed.

Lemma traverser_wildcard_list (l : list pyval) (allow : bool) :
  g !! a = Some (PList l) ->
  _traverser g [(root, KInt 0)] "$[@]" allow
  = Ok (index_nodes a (seq 0 (length l))).
Proof.
  intros Ha. rewrite traverser_wildcard_unfold, expand_nodes_root.
  unfold wildcard_nodes, keys_of, deref. rewrite Ha. cbn [mbind res_bind].
  rewrite <- list_fmap_compose.
  change (_ ∘ _ <$> seq 0 (length l))
    with (index_nodes a (seq 0 (length l))).
  assert (Forall (fun i => (i < length l)%nat) (seq 0 (length l))) as Hlt.
  { apply Forall_forall. intros i Hi%elem_of_seq. lia. }
  revert Hlt. generalize (seq 0 (length l)). intros idxs Hlt.
  assert (forall allow,
            Forall (fun n => kind_ok g allow n = true) (index_nodes a idxs))
    as Hkind.
  { intros b. apply Forall_fmap, Forall_true. intros i.
    unfold kind_ok. cbn. by rewrite Ha. }
  destruct (check_nodes_ok g false _ (Hkind false)) as [us ->].
  cbn [mbind res_bind].
  destruct (present_pairs_all g (index_nodes a idxs)) as (ps & -> & Hps).
  { apply Forall_fmap. eapply Forall_impl; [exact Hlt|].
    intros i Hi. cbn in Hi |- *. unfold has_key, getitem, deref. rewrite Ha.
    cbn [mbind res_bind]. unfold list_len.
    rewrite norm_index_nat by done. split.
    - f_equal. apply andb_true_iff.
      split; [apply Z.leb_le|apply Z.ltb_lt]; lia.
    - destruct (lookup_lt_is_Some_2 l i Hi) as [v ->]. by exists v. }
  cbn [mbind res_bind]. rewrite Hps.
  by destruct (check_nodes_ok g allow _ (Hkind allow)) as [us' ->].
Qed.

Lemma dict_get_key (d : list (string * pyval)) (k : string) :
  k ∈ dict_keys d -> is_Some (dict_get d k).
Proof.
  unfold dict_keys. induction d as [|[k' v] d IH]; cbn; [by inversion 1|].
  intros Hk. destruct (String.eqb_spec k' k); [by eexists|].
  apply IH. by inv Hk.
Qed.

Lemma traverser_wildcard_dict (d : list (string * pyval)) (allow : bool) :
  g !! a = Some (PDict d) ->
  _traverser g [(root, KInt 0)] "$[@]" allow
  = Ok ((fun k => (a, KStr k)) <$> dict_keys d).
Proof.
  intros Ha. rewrite traverser_wildcard_unfold, expand_nodes_root.
  unfold wildcard_nodes, keys_of, deref. rewrite Ha. cbn [mbind res_bind].
  rewrite <- list_fmap_compose.
  change ((fun k : key => (a, k)) ∘ KStr) with (fun k => (a, KStr k)).
  enough (forall ks, Forall (fun k => k ∈ dict_keys d) ks ->
    (_ ← rmapM (fun n : node => _check_key g n.1 n.2 false)
           ((fun k => (a, KStr k)) <$> ks);
     pairs ← present_pairs g false
               (zip ((fun k => (a, KStr k)) <$> ks)
                    ((fun k => (a, KStr k)) <$> ks));
     _ ← rmapM (fun n : node => _check_key g n.1 n.2 allow) pairs.*1;
     Ok pairs.*1) = Ok ((fun k => (a, KStr k)) <$> ks)) as Hall
    by (apply Hall; by apply Forall_forall).
  intros ks Hin.
  assert (forall allow,
            Forall (fun n => kind_ok g allow n = true)
                   ((fun k => (a, KStr k)) <$> ks)) as Hkind.
  { intros b. apply Forall_fmap, Forall_true. intros k.
    unfold kind_ok. cbn. by rewrite Ha. }
  destruct (check_nodes_ok g false _ (Hkind false)) as [us ->].
  cbn [mbind res_bind].
  destruct (present_pairs_all g ((fun k => (a, KStr k)) <$> ks))
    as (ps & -> & Hps).
  { apply Forall_fmap. eapply Forall_impl; [exact Hin|].
    intros k Hk%dict_get_key. cbn. unfold has_key, getitem, deref.
    rewrite Ha. cbn [mbind res_bind]. split.
    - by rewrite bool_decide_true.
    - destruct Hk as [v ->]. by exists v. }
  cbn [mbind res_bind]. rewrite Hps.
  by destruct (check_nodes_ok g allow _ (Hkind allow)) as [us' ->].
Qed.
End wildcard.

(** X12. The wildcard [$[@]] selects every item of the document, in
    order: the positions of a list from the first to the last, the keys
    of a dict in insertion order. *)
Theorem wildcard_selects_every_item
    (g : heap) (root a : addr) (allow_slice : bool) :
  g !! root = Some (PList [PRef a]) ->
  (forall l, g !! a = Some (PList l) ->
     _traverser g [(root, KInt 0)] "$[@]" allow_slice
     = Ok (index_nodes a (seq 0 (length l))))
  /\ (forall d, g !! a = Some (PDict d) ->
        _traverser g [(root, KInt 0)] "$[@]" allow_slice
        = Ok ((fun k => (a, KStr k)) <$> dict_keys d)).
Proof.
  intros Hroot. split; intros x Ha.
  - by apply traverser_wildcard_list.
  - by apply traverser_wildcard_dict.
Qed.

Lemma wildcard_selects_every_item_witness :
  _traverser (doc_10_20_30 ++ [PList [PRef 0%nat]]) [(1%nat, KInt 0)]
    "$[@]" false
  = Ok [(0%nat, KInt 0); (0%nat, KInt 1); (0%nat, KInt 2)]
  /\ _traverser [PDict [("b", PInt 1); ("a", PNone)]; PList [PRef 0%nat]]
       [(1%nat, KInt 0)] "$[@]" true
     = Ok [(0%nat, KStr "b"); (0%nat, KStr "a")].
Proof.
  split.
  - apply (proj1 (wildcard_selects_every_item
                    (doc_10_20_30 ++ [PList [PRef 0%nat]]) 1%nat 0%nat false
                    eq_refl) [PInt 10; PInt 20; PInt 30] eq_refl).
  - apply (proj2 (wildcard_selects_every_item
                    [PDict [("b", PInt 1); ("a", PNone)]; PList [PRef 0%nat]]
                    1%nat 0%nat true eq_refl)
                 [("b", PInt 1); ("a", PNone)] eq_refl).
Defined.

(** ** Three ways to empty a list *)

Lemma remove_positions_from_all {A} (l : list A) : forall k idxs,
  (forall j, (k <= j < k + length l)%nat -> j ∈ idxs) ->
  remove_positions_from k idxs l = [].
Proof.
  induction l as [|x l IH]; intros k idxs Hall; [done|].
  cbn [remove_positions_from]. rewrite bool_decide_true.
  - apply IH. intros j Hj. apply Hall. simpl. lia.
  - apply Hall. simpl. lia.
Qed.

Lemma remove_positions_all {A} (l : list A) :
  remove_positions (seq 0 (length l)) l = [].
Proof.
  apply remove_positions_from_all. intros j Hj. apply elem_of_seq. lia.
Qed.

Lemma seq_sorted (n : nat) : forall k, StronglySorted lt (seq k n).
Proof.
  induction n as [|n IH]; intros k; cbn [seq]; constructor; [apply IH|].
  apply Forall_forall. intros j Hj%elem_of_seq. lia.
Qed.

Lemma slice_indices_whole (n : nat) :
  Z.of_nat n <= maxsize ->
  slice_indices (Z.of_nat n) (- maxsize - 1) maxsize None = Ok (seq 0 n).
Proof.
  intros Hn. unfold slice_indices. cbn [default]. unfold maxsize in *.
  change (1 =? 0) with false. change (1 <? 0) with false. cbn iota.
  destruct (Z.ltb_spec (- (2 ^ 63 - 1) - 1) 0) as [_|?]; [|lia].
  destruct (Z.ltb_spec (- (2 ^ 63 - 1) - 1 + Z.of_nat n) 0) as [_|?]; [|lia].
  destruct (Z.ltb_spec (2 ^ 63 - 1) 0) as [?|_]; [lia|].
  destruct (Z.leb_spec (Z.of_nat n) (2 ^ 63 - 1)) as [_|?]; [|lia].
  f_equal. destruct (Z.ltb_spec 0 (Z.of_nat n)) as [Hpos|Hz].
  - rewrite Z.sub_0_r, Z.div_1_r.
    replace (Z.to_nat (Z.of_nat n - 1 + 1)) with n by lia.
    rewrite <- (map_id (seq 0 n)) at 2. apply map_ext. intros i. lia.
  - by replace n with 0%nat by lia.
Qed.

Section emptying.
Context (g : heap) (root a : addr) (l : list pyval).
Hypothesis Hroot : g !! root = Some (PList [PRef a]).
Hypothesis Ha : g !! a = Some (PList l).
Hypothesis Hne : a <> root.

Lemma clear_root_step (v : option pyval) (e : option string) :
  patch_operation root [(root, KInt 0)] g (Operation "clear" "$" v e)
  = (Ok (), <[a := PList []]> g).
Proof.
  unfold patch_operation.
  cbn [op path value expr String.eqb Ascii.eqb Bool.eqb read_field].
  rewrite (for_root_node _ _ [PRef a]) by done.
  rewrite (getitem_wrapper _ _ (PRef a)) by done. cbn [mbind res_bind].
  unfold deref. by rewrite Ha.
Qed.

Lemma del_wildcard_step (v : option pyval) (e : option string) :
  patch_operation root [(root, KInt 0)] g (Operation "del" "$[@]" v e)
  = (Ok (), <[a := PList []]> g).
Proof.
  unfold patch_operation.
  cbn [op path value expr String.eqb Ascii.eqb Bool.eqb read_field].
  rewrite (traverser_wildcard_list g root a Hroot l) by done.
  cbn [fmap res_fmap for_nodes].
  rewrite (del_loop_ascending root a _ Hne l g); [|apply seq_sorted| |done].
  - by rewrite remove_positions_all.
  - apply Forall_forall. intros i Hi%elem_of_seq. lia.
Qed.

Lemma del_whole_slice_step (v : option pyval) (e : option string) :
  list_len l <= maxsize ->
  patch_operation root [(root, KInt 0)] g
    (Operation "del" "$[start:end]" v e)
  = (Ok (), <[a := PList []]> g).
Proof.
  intros Hlen. unfold patch_operation.
  cbn [op path value expr String.eqb Ascii.eqb Bool.eqb read_field].
  rewrite traverser_whole_slice_unfold, (step_nodes_root g root a Hroot).
  cbn [mbind res_bind rmapM fst snd]. unfold _check_key at 1, deref at 1.
  rewrite Ha. cbn [mbind res_bind andb negb is_str fmap res_fmap rev app].
  cbn [for_nodes for_each]. rewrite bool_decide_false by done.
  unfold delitem, deref. rewrite Ha. cbn [mbind res_bind].
  unfold list_len in *. rewrite slice_indices_whole by done.
  cbn [mbind res_bind lift]. by rewrite remove_positions_all.
Qed.
End emptying.

(** X13. Three ways to empty a list: [clear] on [$], [del] on the
    wildcard [$[@]] and [del] on the slice [$[start:end]] all leave the
    document an empty list, the same object, and change nothing else. *)
Theorem empty_list_three_ways
    (h : heap) (a : addr) (l : list pyval)
    (v : option pyval) (e : option string) :
  h !! a = Some (PList l) ->
  list_len l <= maxsize ->
  let emptied := (Ok (PRef a), <[a := PList []]> h ++ [PList [PRef a]]) in
  patch h (PRef a) (inl (Operation "clear" "$" v e)) = emptied
  /\ patch h (PRef a) (inl (Operation "del" "$[@]" v e)) = emptied
  /\ patch h (PRef a) (inl (Operation "del" "$[start:end]" v e)) = emptied.
Proof.
  intros Ha Hlen emptied.
  pose proof (wrapper_lookup h (PRef a)) as Hroot.
  pose proof (lookup_app_l_Some _ [PList [PRef a]] _ _ Ha) as Ha'.
  assert (a <> length h) as Hne by (apply lookup_lt_Some in Ha; lia).
  destruct (wrapper_after_write h (PRef a) a _ (PList []) Ha) as [Hw Hget].
  repeat split.
  - rewrite (patch_single _ _ _ _ _
               (clear_root_step _ _ a l Hroot Ha' v e)).
    cbn iota. by rewrite Hw, Hget.
  - rewrite (patch_single _ _ _ _ _
               (del_wildcard_step _ _ a l Hroot Ha' Hne v e)).
    cbn iota. by rewrite Hw, Hget.
  - rewrite (patch_single _ _ _ _ _
               (del_whole_slice_step _ _ a l Hroot Ha' Hne v e Hlen)).
    cbn iota. by rewrite Hw, Hget.
Qed.

Lemma empty_list_three_ways_witness :
  patch doc_10_20_30 (PRef 0%nat) (inl (Operation "clear" "$" None None))
  = (Ok (PRef 0%nat), [PList []; PList [PRef 0%nat]])
  /\ patch doc_10_20_30 (PRef 0%nat)
       (inl (Operation "del" "$[@]" None None))
     = (Ok (PRef 0%nat), [PList []; PList [PRef 0%nat]])
  /\ patch doc_10_20_30 (PRef 0%nat)
       (inl (Operation "del" "$[start:end]" None None))
     = (Ok (PRef 0%nat), [PList []; PList [PRef 0%nat]]).
Proof.
  apply (empty_list_three_ways doc_10_20_30 0%nat
           [PInt 10; PInt 20; PInt 30] None None eq_refl).
  vm_compute. discriminate.
Defined.

(** ** How list operations compose *)

Lemma append_loop (root a : addr) (e : option string) (vs : list pyval) :
  a <> root ->
  forall (g : heap) (l : list pyval),
  g !! root = Some (PList [PRef a]) ->
  g !! a = Some (PList l) ->
  for_each (patch_operation root [(root, KInt 0)]) g
    ((fun x => Operation "append" "$" (Some x) e) <$> vs)
  = (Ok (), <[a := PList (l ++ vs)]> g).
Proof.
  intros Hne. induction vs as [|v vs IH]; intros g l Hroot Ha.
  - cbn [fmap list_fmap for_each]. by rewrite app_nil_r, list_insert_id.
  - cbn [fmap list_fmap for_each].
    rewrite (append_root_step g root a l Hroot Ha).
    fold (fmap (M:=list) (fun x => Operation "append" "$" (Some x) e) vs).
    rewrite (IH _ (l ++ [v])).
    + by rewrite list_insert_insert_eq, <- app_assoc.
    + by rewrite list_lookup_insert_ne.
    + apply list_lookup_insert_eq. by eapply lookup_lt_Some.
Qed.

(** X14. [extend] on [$] is [append] item by item: extending a list
    document by a value puts behind its items what iterating the value
    yields (the items of a list, the keys of a dict, the characters of a
    string), which is what the batch of the [append] operations of those
    items does.  The items are read before the write: a list extended by
    itself is doubled. *)
Theorem extend_root_is_repeated_append
    (h : heap) (a : addr) (l : list pyval) (v : pyval) (vs : list pyval)
    (e : option string) :
  h !! a = Some (PList l) ->
  iter_value h v = Ok vs ->
  let extended :=
    (Ok (PRef a), <[a := PList (l ++ vs)]> h ++ [PList [PRef a]]) in
  patch h (PRef a) (inl (Operation "extend" "$" (Some v) e)) = extended
  /\ patch h (PRef a)
       (inr ((fun x => Operation "append" "$" (Some x) e) <$> vs))
     = extended
  /\ patch h (PRef a) (inl (Operation "extend" "$" (Some (PRef a)) e))
     = (Ok (PRef a), <[a := PList (l ++ l)]> h ++ [PList [PRef a]]).
Proof.
  intros Ha Hvs extended.
  pose proof (wrapper_lookup h (PRef a)) as Hroot.
  pose proof (lookup_app_l_Some _ [PList [PRef a]] _ _ Ha) as Ha'.
  assert (a <> length h) as Hne by (apply lookup_lt_Some in Ha; lia).
  assert (forall ws, iter_value h ws = Ok vs ->
    patch h (PRef a) (inl (Operation "extend" "$" (Some ws) e)) = extended)
    as Hext.
  { intros ws Hws.
    rewrite (patch_single _ _ _ _ _
               (extend_root_step _ _ a l Hroot Ha' ws vs e
                  (iter_value_wrapper h _ ws vs Hws))).
    destruct (wrapper_after_write h (PRef a) a _ (PList (l ++ vs)) Ha)
      as [Hw Hget].
    cbn iota. by rewrite Hw, Hget. }
  split; [by apply Hext|split].
  - rewrite patch_list_unfold.
    rewrite (append_loop (length h) a e vs Hne _ l Hroot Ha').
    destruct (wrapper_after_write h (PRef a) a _ (PList (l ++ vs)) Ha)
      as [Hw Hget].
    by rewrite Hw, Hget.
  - rewrite (patch_single _ _ _ _ _
               (extend_root_step _ _ a l Hroot Ha' (PRef a) l e
                  ltac:(unfold iter_value, deref; by rewrite Ha'))).
    destruct (wrapper_after_write h (PRef a) a _ (PList (l ++ l)) Ha)
      as [Hw Hget].
    cbn iota. by rewrite Hw, Hget.
Qed.

Lemma extend_root_is_repeated_append_witness :
  patch doc_10_20_30 (PRef 0%nat)
    (inl (Operation "extend" "$" (Some (PStr "ab")) None))
  = (Ok (PRef 0%nat),
     [PList [PInt 10; PInt 20; PInt 30; PStr "a"; PStr "b"];
      PList [PRef 0%nat]])
  /\ patch doc_10_20_30 (PRef 0%nat)
       (inr [Operation "append" "$" (Some (PStr "a")) None;
             Operation "append" "$" (Some (PStr "b")) None])
     = (Ok (PRef 0%nat),
        [PList [PInt 10; PInt 20; PInt 30; PStr "a"; PStr "b"];
         PList [PRef 0%nat]])
  /\ patch doc_10_20_30 (PRef 0%nat)
       (inl (Operation "extend" "$" (Some (PRef 0%nat)) None))
     = (Ok (PRef 0%nat),
        [PList [PInt 10; PInt 20; PInt 30; PInt 10; PInt 20; PInt 30];
         PList [PRef 0%nat]]).
Proof.
  apply (extend_root_is_repeated_append doc_10_20_30 0%nat
           [PInt 10; PInt 20; PInt 30] (PStr "ab") [PStr "a"; PStr "b"]
           None eq_refl eq_refl).
Defined.

(** X15. [reverse] on [$] reverses a list document in place, and two
    [reverse] operations in one batch leave the heap as it was. *)
Theorem reverse_root_involutive
    (h : heap) (a : addr) (l : list pyval)
    (v1 v2 : option pyval) (e1 e2 : option string) :
  h !! a = Some (PList l) ->
  patch h (PRef a) (inl (Operation "reverse" "$" v1 e1))
  = (Ok (PRef a), <[a := PList (rev l)]> h ++ [PList [PRef a]])
  /\ patch h (PRef a)
       (inr [Operation "reverse" "$" v1 e1; Operation "reverse" "$" v2 e2])
     = (Ok (PRef a), h ++ [PList [PRef a]]).
Proof.
  intros Ha.
  pose proof (wrapper_lookup h (PRef a)) as Hroot.
  pose proof (lookup_app_l_Some _ [PList [PRef a]] _ _ Ha) as Ha'.
  assert (a <> length h) as Hne by (apply lookup_lt_Some in Ha; lia).
  split.
  - rewrite (patch_single _ _ _ _ _
               (reverse_root_step _ _ a l Hroot Ha' v1 e1)).
    destruct (wrapper_after_write h (PRef a) a _ (PList (rev l)) Ha)
      as [Hw Hget].
    cbn iota. by rewrite Hw, Hget.
  - rewrite patch_list_unfold. cbn [for_each].
    rewrite (reverse_root_step _ _ a l Hroot Ha' v1 e1).
    rewrite (reverse_root_step _ (length h) a (rev l)).
    + rewrite list_insert_insert_eq, rev_involutive.
      rewrite list_insert_id by done.
      by rewrite (getitem_wrapper _ _ (PRef a)).
    + by rewrite list_lookup_insert_ne.
    + apply list_lookup_insert_eq. by eapply lookup_lt_Some.
Qed.

Lemma reverse_root_involutive_witness :
  patch doc_10_20_30 (PRef 0%nat) (inl (Operation "reverse" "$" None None))
  = (Ok (PRef 0%nat), [PList [PInt 30; PInt 20; PInt 10]; PList [PRef 0%nat]])
  /\ patch doc_10_20_30 (PRef 0%nat)
       (inr [Operation "reverse" "$" None None;
             Operation "reverse" "$" None None])
     = (Ok (PRef 0%nat), doc_10_20_30 ++ [PList [PRef 0%nat]]).
Proof.
  apply (reverse_root_involutive doc_10_20_30 0%nat
           [PInt 10; PInt 20; PInt 30] None None None None eq_refl).
Defined.

(** ** Paths to a key *)

Lemma slice_str_head (c : ascii) (x : string) :
  slice_str (String c x) 0 1 = String c "".
Proof. unfold slice_str. cbn [substring]. by destruct x. Qed.

Lemma slice_str_end (s : string) (k : nat) :
  slice_str s (String.length s) k = "".
Proof.
  unfold slice_str. induction s as [|c s IH]; [by destruct k|done].
Qed.

Section key_path.
Context (g : heap) (root a : addr) (k : string).
Hypothesis Hroot : g !! root = Some (PList [PRef a]).

Lemma traverser_key_path_unfold (allow : bool) :
  _traverser g [(root, KInt 0)] ("$." +:+ escape_key k) allow
  = (_ ← _check_key g a (KStr k) allow; Ok [(a, KStr k)]).
Proof.
  unfold _traverser.
  change (_get_key ("$." +:+ escape_key k) 0)
    with (_get_key ("" +:+ escape_key "$" +:+ String "." (escape_key k))
            (String.length "")).
  rewrite (get_key_escape_at "" "$" (String "." (escape_key k))) by done.
  change (ends_key (String "." (escape_key k))) with true. cbn iota.
  cbn [mbind res_bind]. eval_closed (String.eqb "$" "$").
  cbn [negb]. eval_closed (String.length "" + String.length (escape_key "$"))%nat.
  unfold query_fuel.
  change ("$." +:+ escape_key k)
    with (String "$" (String "." (escape_key k))).
  cbn [String.length]. rewrite traverse_S.
  change (slice_str (String "$" (String "." (escape_key k))) 1 1)
    with (slice_str (String "." (escape_key k)) 0 1).
  rewrite slice_str_head. eval_closed (String.eqb "." "."). cbn iota.
  rewrite <- (str_app_nil_r (escape_key k)) at 1.
  change (_get_key (String "$" (String "." (escape_key k +:+ ""))) 2)
    with (_get_key ("$." +:+ escape_key k +:+ "") (String.length "$.")).
  rewrite (get_key_escape_at "$." k "") by done.
  cbn [ends_key mbind res_bind].
  rewrite (step_nodes_root g root a Hroot). cbn [mbind res_bind].
  rewrite traverse_S.
  replace (String.length "$." + String.length (escape_key k))%nat
    with (String.length (String "$" (String "." (escape_key k))))
    by (simpl; lia).
  rewrite slice_str_end. eval_closed (String.eqb "" ".").
  eval_closed (String.eqb "" "["). cbn iota. cbn [rmapM fst snd].
  destruct (_check_key g a (KStr k) allow) as [[]| |]; [|done..].
  cbn [mbind res_bind]. by rewrite Nat.ltb_irrefl.
Qed.

Lemma traverser_key_path (d : list (string * pyval)) (allow : bool) :
  g !! a = Some (PDict d) ->
  _traverser g [(root, KInt 0)] ("$." +:+ escape_key k) allow
  = Ok [(a, KStr k)].
Proof.
  intros Ha. rewrite traverser_key_path_unfold.
  unfold _check_key, deref. by rewrite Ha.
Qed.
End key_path.

Lemma dict_get_set_eq d k v : dict_get (dict_set d k v) k = Some v.
Proof.
  induction d as [|[k' v'] d IH]; cbn [dict_set dict_get].
  - by rewrite String.eqb_refl.
  - destruct (String.eqb k' k) eqn:Hk; cbn [dict_get]; by rewrite Hk.
Qed.

Lemma dict_get_set_ne d k k' v :
  k' <> k -> dict_get (dict_set d k v) k' = dict_get d k'.
Proof.
  intros Hne. induction d as [|[k0 v0] d IH]; cbn [dict_set dict_get].
  - by destruct (String.eqb_spec k k').
  - destruct (String.eqb_spec k0 k) as [->|]; cbn [dict_get]; [|by rewrite IH].
    by destruct (String.eqb_spec k k').
Qed.

Lemma dict_del_set_new d k v :
  dict_get d k = None -> dict_del (dict_set d k v) k = d.
Proof.
  induction d as [|[k0 v0] d IH]; cbn [dict_set dict_get dict_del].
  - by rewrite String.eqb_refl.
  - destruct (String.eqb k0 k) eqn:Hk; [done|]. intros Hd.
    cbn [dict_del]. by rewrite Hk, IH.
Qed.

Section key_steps.
Context (g : heap) (root a : addr) (d : list (string * pyval)) (k : string).
Hypothesis Hroot : g !! root = Some (PList [PRef a]).
Hypothesis Ha : g !! a = Some (PDict d).
Hypothesis Hne : a <> root.

Lemma set_key_step (v : pyval) (e : option string) :
  patch_operation root [(root, KInt 0)] g
    (Operation "set" ("$." +:+ escape_key k) (Some v) e)
  = (Ok (), <[a := PDict (dict_set d k v)]> g).
Proof.
  unfold patch_operation.
  cbn [op path value expr String.eqb Ascii.eqb Bool.eqb read_field].
  rewrite (traverser_key_path g root a k Hroot d) by done.
  cbn [for_nodes for_each]. unfold setitem, deref. by rewrite Ha.
Qed.

Lemma del_key_step (v : option pyval) (e : option string) :
  patch_operation root [(root, KInt 0)] g
    (Operation "del" ("$." +:+ escape_key k) v e)
  = match dict_get d k with
    | Some _ => (Ok (), <[a := PDict (dict_del d k)]> g)
    | None => (Raise KeyError, g)
    end.
Proof.
  unfold patch_operation.
  cbn [op path value expr String.eqb Ascii.eqb Bool.eqb read_field].
  rewrite (traverser_key_path g root a k Hroot d) by done.
  cbn [fmap res_fmap rev app for_nodes for_each].
  rewrite bool_decide_false by done.
  unfold delitem, deref. rewrite Ha. cbn [mbind res_bind].
  by destruct (dict_get d k).
Qed.
End key_steps.

(** X16. [set] on the path of a key, written with its control
    characters escaped, stores the value under that key of a dict
    document, in place: afterwards the key holds the value, whether it
    existed or not, and every other key holds what it held. *)
Theorem set_key_path
    (h : heap) (a : addr) (d : list (string * pyval)) (k : string)
    (v : pyval) (e : option string) :
  h !! a = Some (PDict d) ->
  patch h (PRef a) (inl (Operation "set" ("$." +:+ escape_key k) (Some v) e))
  = (Ok (PRef a), <[a := PDict (dict_set d k v)]> h ++ [PList [PRef a]])
  /\ dict_get (dict_set d k v) k = Some v
  /\ (forall k', k' <> k -> dict_get (dict_set d k v) k' = dict_get d k').
Proof.
  intros Ha.
  pose proof (wrapper_lookup h (PRef a)) as Hroot.
  pose proof (lookup_app_l_Some _ [PList [PRef a]] _ _ Ha) as Ha'.
  split; [|split; [apply dict_get_set_eq|intros; by apply dict_get_set_ne]].
  rewrite (patch_single _ _ _ _ _ (set_key_step _ _ a d k Hroot Ha' v e)).
  destruct (wrapper_after_write h (PRef a) a _ (PDict (dict_set d k v)) Ha)
    as [Hw Hget].
  cbn iota. by rewrite Hw, Hget.
Qed.

Lemma set_key_path_witness :
  patch [PDict [("a.b", PInt 1)]] (PRef 0%nat)
    (inl (Operation "set" "$.a~.b" (Some (PInt 2)) None))
  = (Ok (PRef 0%nat), [PDict [("a.b", PInt 2)]; PList [PRef 0%nat]]).
Proof.
  apply (set_key_path [PDict [("a.b", PInt 1)]] 0%nat [("a.b", PInt 1)]
           "a.b" (PInt 2) None eq_refl).
Defined.

(** X17. [del] on the path of a key removes the key of a dict document
    when it is there, and raises [KeyError], writing nothing, when it is
    not; storing a new key and deleting it in one batch leaves the heap
    as it was. *)
Theorem del_key_path
    (h : heap) (a : addr) (d : list (string * pyval)) (k : string)
    (v0 : option pyval) (v : pyval) (e : option string) :
  h !! a = Some (PDict d) ->
  let del_k := Operation "del" ("$." +:+ escape_key k) v0 e in
  let set_k := Operation "set" ("$." +:+ escape_key k) (Some v) e in
  (is_Some (dict_get d k) ->
   patch h (PRef a) (inl del_k)
   = (Ok (PRef a), <[a := PDict (dict_del d k)]> h ++ [PList [PRef a]]))
  /\ (dict_get d k = None ->
      patch h (PRef a) (inl del_k)
      = (Raise KeyError, h ++ [PList [PRef a]]))
  /\ (dict_get d k = None ->
      patch h (PRef a) (inr [set_k; del_k])
      = (Ok (PRef a), h ++ [PList [PRef a]])).
Proof.
  intros Ha del_k set_k.
  pose proof (wrapper_lookup h (PRef a)) as Hroot.
  pose proof (lookup_app_l_Some _ [PList [PRef a]] _ _ Ha) as Ha'.
  assert (a <> length h) as Hne by (apply lookup_lt_Some in Ha; lia).
  split; [|split].
  - intros [x Hx]. unfold del_k.
    pose proof (del_key_step _ _ a d k Hroot Ha' Hne v0 e) as Hstep.
    rewrite Hx in Hstep. rewrite (patch_single _ _ _ _ _ Hstep).
    destruct (wrapper_after_write h (PRef a) a _ (PDict (dict_del d k)) Ha)
      as [Hw Hget].
    cbn iota. by rewrite Hw, Hget.
  - intros Hx. unfold del_k.
    pose proof (del_key_step _ _ a d k Hroot Ha' Hne v0 e) as Hstep.
    rewrite Hx in Hstep. by rewrite (patch_single _ _ _ _ _ Hstep).
  - intros Hx. rewrite patch_list_unfold. unfold set_k, del_k.
    cbn [for_each].
    rewrite (set_key_step _ _ a d k Hroot Ha' v e).
    rewrite (del_key_step _ (length h) a (dict_set d k v) k).
    + rewrite dict_get_set_eq, list_insert_insert_eq, dict_del_set_new by done.
      rewrite list_insert_id by done.
      by rewrite (getitem_wrapper _ _ (PRef a)).
    + by rewrite list_lookup_insert_ne.
    + apply list_lookup_insert_eq. by eapply lookup_lt_Some.
    + done.
Qed.

Lemma del_key_path_witness :
  patch [PDict [("a.b", PInt 1)]] (PRef 0%nat)
    (inl (Operation "del" "$.a~.b" None None))
  = (Ok (PRef 0%nat), [PDict []; PList [PRef 0%nat]])
  /\ patch [PDict [("a.b", PInt 1)]] (PRef 0%nat)
       (inl (Operation "del" "$.c" None None))
     = (Raise KeyError, [PDict [("a.b", PInt 1)]; PList [PRef 0%nat]])
  /\ patch [PDict [("a.b", PInt 1)]] (PRef 0%nat)
       (inr [Operation "set" "$.c" (Some PNone) None;
             Operation "del" "$.c" None None])
     = (Ok (PRef 0%nat), [PDict [("a.b", PInt 1)]; PList [PRef 0%nat]]).
Proof.
  destruct (del_key_path [PDict [("a.b", PInt 1)]] 0%nat [("a.b", PInt 1)]
              "a.b" None PNone None eq_refl) as (H1 & _ & _).
  destruct (del_key_path [PDict [("a.b", PInt 1)]] 0%nat [("a.b", PInt 1)]
              "c" None PNone None eq_refl) as (_ & H2 & H3).
  split; [apply H1; by eexists|split; [by apply H2|by apply H3]].
Defined.

(** ** Integers: writing and reading *)

Lemma digits_val_uint_acc (d : Decimal.uint) : forall acc : positive,
  digits_val (Z.pos acc) (DecimalString.NilEmpty.string_of_uint d)
  = Z.pos (Pos.of_uint_acc d acc).
Proof.
  induction d as [|d IH|d IH|d IH|d IH|d IH|d IH|d IH|d IH|d IH|d IH];
    intros acc; [done|..];
    cbn [DecimalString.NilEmpty.string_of_uint digits_val Pos.of_uint_acc];
    rewrite <- IH; f_equal;
    match goal with
    | |- context [digit_val ?c] =>
        let v := eval vm_compute in (digit_val c) in
        change (digit_val c) with v
    end; lia.
Qed.

Lemma digits_val_uint (d : Decimal.uint) :
  digits_val 0 (DecimalString.NilEmpty.string_of_uint d)
  = Z.of_N (Pos.of_uint d).
Proof.
  induction d as [|d IH|d IH|d IH|d IH|d IH|d IH|d IH|d IH|d IH|d IH];
    [done|exact IH|..];
    cbn [DecimalString.NilEmpty.string_of_uint digits_val Pos.of_uint];
    match goal with
    | |- digits_val ?z _ = _ =>
        let p := eval vm_compute in z in change z with p
    end;
    by rewrite digits_val_uint_acc.
Qed.

(** The numeral of a positive number starts with a digit other than
    zero. *)
Lemma to_uint_head (p : positive) :
  match Pos.to_uint p with
  | Decimal.Nil | Decimal.D0 _ => False
  | _ => True
  end.
Proof.
  pose proof (DecimalPos.Unsigned.to_of (Pos.to_uint p)) as Hnorm.
  rewrite DecimalPos.Unsigned.of_to in Hnorm. cbn [N.to_uint] in Hnorm.
  pose proof (DecimalPos.Unsigned.to_uint_nonzero p) as Hnz.
  destruct (Pos.to_uint p) as [|d|d|d|d|d|d|d|d|d|d] eqn:Hd; try done.
  assert (Decimal.nzhead (Decimal.D0 d) <> Decimal.Nil) as Hhead.
  { intros H%DecimalFacts.unorm_0. rewrite <- Hnorm in H. done. }
  rewrite (DecimalFacts.unorm_nzhead _ Hhead) in Hnorm.
  pose proof (DecimalFacts.nb_digits_nzhead d) as Hlen.
  cbn [Decimal.nzhead] in Hnorm. rewrite <- Hnorm in Hlen.
  cbn [Decimal.nb_digits] in Hlen. lia.
Qed.

Lemma uint_digits (d : Decimal.uint) :
  str_forallb is_digit (DecimalString.NilEmpty.string_of_uint d) = true.
Proof.
  induction d as [|d IH|d IH|d IH|d IH|d IH|d IH|d IH|d IH|d IH|d IH];
    [done|..]; cbn [DecimalString.NilEmpty.string_of_uint str_forallb];
    by rewrite IH.
Qed.


(** The integer pattern on the numeral of a positive number. *)
Lemma re_int_pos (p : positive) (rest : string) :
  span_str is_digit rest = "" ->
  re_int (DecimalString.NilEmpty.string_of_uint (Pos.to_uint p) +:+ rest)
  = Some (DecimalString.NilEmpty.string_of_uint (Pos.to_uint p)).
Proof.
  intros Hrest. pose proof (to_uint_head p) as Hhead.
  destruct (Pos.to_uint p) as [|d|d|d|d|d|d|d|d|d|d]; try done;
    cbn [DecimalString.NilEmpty.string_of_uint];
    rewrite str_app_cons; unfold re_int; cbn [is_digit19 char_in existsb];
    rewrite span_str_app, Hrest, str_app_nil_r by apply uint_digits;
    reflexivity.
Qed.

Lemma show_int_cases (z : Z) :
  z = 0 /\ show_int z = "0"
  \/ (exists p, z = Z.pos p
        /\ show_int z
           = DecimalString.NilEmpty.string_of_uint (Pos.to_uint p))
  \/ (exists p, z = Z.neg p
        /\ show_int z
           = String "-"
               (DecimalString.NilEmpty.string_of_uint (Pos.to_uint p))).
Proof.
  destruct z as [|p|p]; [by left|right; left|right; right]; exists p;
    (split; [done|]); unfold show_int; cbn [Z.to_int];
    pose proof (to_uint_head p) as Hhead;
    cbn [DecimalString.NilZero.string_of_int];
    unfold DecimalString.NilZero.string_of_uint;
    by destruct (Pos.to_uint p).
Qed.

Lemma re_int_show (z : Z) (rest : string) :
  span_str is_digit rest = "" ->
  re_int (show_int z +:+ rest) = Some (show_int z).
Proof.
  intros Hrest.
  destruct (show_int_cases z) as [[_ ->]|[(p & _ & ->)|(p & _ & ->)]].
  - done.
  - by apply re_int_pos.
  - rewrite str_app_cons. pose proof (re_int_pos p rest Hrest) as H.
    pose proof (to_uint_head p) as Hhead. revert H.
    destruct (Pos.to_uint p) as [|d|d|d|d|d|d|d|d|d|d]; try done;
      cbn [DecimalString.NilEmpty.string_of_uint]; rewrite str_app_cons;
      unfold re_int; cbn [is_digit19 char_in existsb Ascii.eqb Bool.eqb orb];
      by intros [= ->].
Qed.

Lemma int_of_str_show (z : Z) : int_of_str (show_int z) = z.
Proof.
  destruct (show_int_cases z) as [[-> ->]|[(p & -> & ->)|(p & -> & ->)]].
  - done.
  - pose proof (to_uint_head p) as Hhead.
    pose proof (digits_val_uint (Pos.to_uint p)) as Hval.
    rewrite DecimalPos.Unsigned.of_to in Hval. cbn [Z.of_N] in Hval.
    rewrite <- Hval. unfold int_of_str.
    by destruct (Pos.to_uint p) as [|d|d|d|d|d|d|d|d|d|d].
  - pose proof (digits_val_uint (Pos.to_uint p)) as Hval.
    rewrite DecimalPos.Unsigned.of_to in Hval. cbn [Z.of_N] in Hval.
    unfold int_of_str. by rewrite Hval.
Qed.

(** The first character of a numeral is a digit or the minus sign. *)
Lemma show_int_head (z : Z) :
  exists c r, show_int z = String c r
              /\ char_in c ["-";"0";"1";"2";"3";"4";"5";"6";"7";"8";"9"]%char
                 = true.
Proof.
  destruct (show_int_cases z) as [[_ ->]|[(p & _ & ->)|(p & _ & ->)]];
    [by eexists _, _|pose proof (to_uint_head p) as Hhead|by eexists _, _].
  destruct (Pos.to_uint p) as [|d|d|d|d|d|d|d|d|d|d]; try done;
    by eexists _, _.
Qed.






(** ** Paths to a position *)

Lemma match_idx_show (pre : string) (z : Z) (rest : string) :
  span_str is_digit rest = "" ->
  _match_idx (pre +:+ show_int z +:+ rest) (String.length pre)
  = Some (show_int z, (String.length pre + String.length (show_int z))%nat)
  /\ _get_idx (show_int z,
               (String.length pre + String.length (show_int z))%nat)
     = (z, (String.length pre + String.length (show_int z))%nat).
Proof.
  intros Hrest. destruct (show_int_head z) as (c & r & Hs & Hc).
  assert (Ascii.eqb c "e" = false /\ Ascii.eqb c "s" = false)
    as [He Hst].
  { clear -Hc. destruct c as [[] [] [] [] [] [] [] []]; done. }
  split.
  - unfold _match_idx, match_pos.
    rewrite str_length_app, Nat.min_l by lia. rewrite str_drop_app.
    assert (show_int z +:+ rest = String c (r +:+ rest)) as Hx
      by (by rewrite Hs).
    unfold re_idx. rewrite Hx. cbn [substring String.eqb].
    rewrite He, Hst. cbn [andb]. cbn iota.
    rewrite <- Hx. by rewrite re_int_show.
  - unfold _get_idx.
    assert (String.eqb (show_int z) "end" = false
            /\ String.eqb (show_int z) "start" = false) as [-> ->].
    { rewrite Hs. cbn [String.eqb]. by rewrite He, Hst. }
    by rewrite int_of_str_show.
Qed.

Section index_path.
Context (g : heap) (root a : addr) (z : Z).
Hypothesis Hroot : g !! root = Some (PList [PRef a]).

Lemma traverser_index_path_unfold (allow : bool) :
  _traverser g [(root, KInt 0)] ("$[" +:+ show_int z +:+ "]") allow
  = (_ ← _check_key g a (KInt z) allow; Ok [(a, KInt z)]).
Proof.
  set (s := "$[" +:+ show_int z +:+ "]").
  assert (String.length s = S (S (S (String.length (show_int z))))) as Hlen.
  { subst s. rewrite !str_length_app. simpl. lia. }
  unfold _traverser.
  change (_get_key s 0)
    with (_get_key ("" +:+ escape_key "$" +:+ String "[" (show_int z +:+ "]"))
            (String.length "")).
  rewrite (get_key_escape_at "" "$" (String "[" (show_int z +:+ "]")))
    by done.
  change (ends_key (String "[" (show_int z +:+ "]"))) with true. cbn iota.
  cbn [mbind res_bind]. eval_closed (String.eqb "$" "$"). cbn [negb].
  eval_closed (String.length "" + String.length (escape_key "$"))%nat.
  unfold query_fuel. rewrite Hlen. rewrite traverse_S.
  change (slice_str s 1 1)
    with (slice_str (String "[" (show_int z +:+ "]")) 0 1).
  rewrite slice_str_head. eval_closed (String.eqb "[" ".").
  eval_closed (String.eqb "[" "["). cbn iota.
  destruct (match_idx_show "$[" z "]" eq_refl) as [Hm Hi].
  change (String.length "$[") with 2%nat in Hm, Hi. fold s in Hm.
  rewrite Hm. unfold bracket_key. rewrite Hi.
  assert (slice_str s (2 + String.length (show_int z)) 1 = "]") as Hclose.
  { subst s. change 2%nat with (String.length "$[").
    by rewrite slice_str_after. }
  assert (String.get (2 + String.length (show_int z)) s = Some "]"%char)
    as Hget.
  { subst s. change 2%nat with (String.length "$[").
    by rewrite str_get_after_0. }
  rewrite Hclose. eval_closed (String.eqb "]" ":"). cbn [negb mbind res_bind].
  rewrite (step_nodes_root g root a Hroot). cbn [mbind res_bind].
  rewrite Hget. eval_closed (Ascii.eqb "]" "]"). cbn [negb].
  rewrite traverse_S.
  replace (S (2 + String.length (show_int z))) with (String.length s)
    by lia.
  rewrite slice_str_end. eval_closed (String.eqb "" ".").
  eval_closed (String.eqb "" "["). cbn iota. cbn [rmapM fst snd].
  destruct (_check_key g a (KInt z) allow) as [[]| |]; [|done..].
  cbn [mbind res_bind]. by rewrite ?Hlen, Nat.ltb_irrefl.
Qed.

Lemma traverser_index_path (l : list pyval) (allow : bool) :
  g !! a = Some (PList l) ->
  _traverser g [(root, KInt 0)] ("$[" +:+ show_int z +:+ "]") allow
  = Ok [(a, KInt z)].
Proof.
  intros Ha. rewrite traverser_index_path_unfold.
  unfold _check_key, deref. rewrite Ha. by destruct allow.
Qed.
End index_path.



Lemma norm_index_neg (len i : nat) :
  (i < len)%nat ->
  norm_index (Z.of_nat len) (- Z.of_nat (S i)) = Some (len - S i)%nat.
Proof.
  intros Hi. unfold norm_index.
  destruct (Z.ltb_spec (- Z.of_nat (S i)) 0); [|lia].
  destruct (Z.leb_spec 0 (- Z.of_nat (S i) + Z.of_nat len)); [|lia].
  destruct (Z.ltb_spec (- Z.of_nat (S i) + Z.of_nat len) (Z.of_nat len));
    [|lia].
  cbn [andb]. f_equal. lia.
Qed.


Section index_steps.
Context (g : heap) (root a : addr) (l : list pyval) (z : Z).
Hypothesis Hroot : g !! root = Some (PList [PRef a]).
Hypothesis Ha : g !! a = Some (PList l).
Hypothesis Hne : a <> root.


Lemma del_index_step (v : option pyval) (e : option string) :
  patch_operation root [(root, KInt 0)] g
    (Operation "del" ("$[" +:+ show_int z +:+ "]") v e)
  = match norm_index (list_len l) z with
    | Some j => (Ok (), <[a := PList (remove_at j l)]> g)
    | None => (Raise IndexError, g)
    end.
Proof.
  unfold patch_operation.
  cbn [op path value expr String.eqb Ascii.eqb Bool.eqb read_field].
  rewrite (traverser_index_path g root a z Hroot l) by done.
  cbn [fmap res_fmap rev app for_nodes for_each].
  rewrite bool_decide_false by done.
  unfold delitem, deref. rewrite Ha.
  cbn [mbind res_bind]. by destruct (norm_index (list_len l) z).
Qed.
End index_steps.



(** X21. Appending a value and deleting the last item, [$[-1]], in one
    batch leaves the heap as it was. *)
Theorem append_then_del_last
    (h : heap) (a : addr) (l : list pyval) (v : pyval)
    (v0 : option pyval) (e1 e2 : option string) :
  h !! a = Some (PList l) ->
  patch h (PRef a)
    (inr [Operation "append" "$" (Some v) e1;
          Operation "del" "$[-1]" v0 e2])
  = (Ok (PRef a), h ++ [PList [PRef a]]).
Proof.
  intros Ha.
  pose proof (wrapper_lookup h (PRef a)) as Hroot.
  pose proof (lookup_app_l_Some _ [PList [PRef a]] _ _ Ha) as Ha'.
  assert (a <> length h) as Hne by (apply lookup_lt_Some in Ha; lia).
  rewrite patch_list_unfold. cbn [for_each].
  rewrite (append_root_step _ _ a l Hroot Ha' v e1).
  change "$[-1]" with ("$[" +:+ show_int (-1) +:+ "]").
  rewrite (del_index_step _ (length h) a (l ++ [v]) (-1)).
  - unfold list_len. rewrite length_app, Nat.add_1_r.
    pose proof (norm_index_neg (S (length l)) 0 ltac:(lia)) as Hlast.
    change (- Z.of_nat 1) with (-1) in Hlast. rewrite Hlast.
    rewrite list_insert_insert_eq. unfold remove_at.
    replace (S (length l) - 1)%nat with (length l) by lia.
    rewrite take_app_length, drop_ge by (rewrite length_app; simpl; lia).
    rewrite app_nil_r, list_insert_id by done.
    by rewrite (getitem_wrapper _ _ (PRef a)).
  - by rewrite list_lookup_insert_ne.
  - apply list_lookup_insert_eq. by eapply lookup_lt_Some.
  - done.
Qed.

Lemma append_then_del_last_witness :
  patch doc_10_20_30 (PRef 0%nat)
    (inr [Operation "append" "$" (Some PNone) None;
          Operation "del" "$[-1]" None None])
  = (Ok (PRef 0%nat), doc_10_20_30 ++ [PList [PRef 0%nat]]).
Proof.
  apply (append_then_del_last doc_10_20_30 0%nat
           [PInt 10; PInt 20; PInt 30] PNone None None None eq_refl).
Defined.

(** ** Inserting and deleting at a position *)

Lemma insert_index_step (g : heap) (root a : addr) (l : list pyval) (z : Z)
    (v : pyval) (e : option string) :
  g !! root = Some (PList [PRef a]) ->
  g !! a = Some (PList l) ->
  a <> root ->
  patch_operation root [(root, KInt 0)] g
    (Operation "insert" ("$[" +:+ show_int z +:+ "]") (Some v) e)
  = lift g (pylist_insert g a (KInt z) v).
Proof.
  intros Hroot Ha Hne. unfold patch_operation.
  cbn [op path value expr String.eqb Ascii.eqb Bool.eqb read_field].
  rewrite (traverser_index_path g root a z Hroot l) by done.
  cbn [fmap res_fmap rev app for_nodes for_each].
  rewrite bool_decide_false by done.
  by destruct (pylist_insert g a (KInt z) v).
Qed.

(** X22. [insert] on the path [$[i]] puts the value in front of the
    item at position [i] of a list document, or behind the last item
    when [i] is the length; deleting [$[i]] next, in the same batch,
    leaves the heap as it was. *)
Theorem insert_then_del
    (h : heap) (a : addr) (l : list pyval) (i : nat) (v : pyval)
    (v0 : option pyval) (e1 e2 : option string) :
  h !! a = Some (PList l) ->
  (i <= length l)%nat ->
  list_len l <= maxsize ->
  let at_i := "$[" +:+ show_int (Z.of_nat i) +:+ "]" in
  patch h (PRef a) (inl (Operation "insert" at_i (Some v) e1))
  = (Ok (PRef a),
     <[a := PList (take i l ++ v :: drop i l)]> h ++ [PList [PRef a]])
  /\ patch h (PRef a)
       (inr [Operation "insert" at_i (Some v) e1;
             Operation "del" at_i v0 e2])
     = (Ok (PRef a), h ++ [PList [PRef a]]).
Proof.
  intros Ha Hi Hmax at_i.
  pose proof (wrapper_lookup h (PRef a)) as Hroot.
  pose proof (lookup_app_l_Some _ [PList [PRef a]] _ _ Ha) as Ha'.
  assert (a <> length h) as Hne by (apply lookup_lt_Some in Ha; lia).
  assert (pylist_insert (h ++ [PList [PRef a]]) a (KInt (Z.of_nat i)) v
          = Ok (<[a := PList (take i l ++ v :: drop i l)]>
                  (h ++ [PList [PRef a]]))) as Hins.
  { unfold pylist_insert, deref. rewrite Ha'. cbn [mbind res_bind].
    unfold list_len in *.
    destruct (Z.ltb_spec (Z.of_nat i) (- maxsize - 1)) as [Hlow|_];
      [unfold maxsize in Hlow; lia|].
    destruct (Z.ltb_spec maxsize (Z.of_nat i)); [lia|]. cbn [orb].
    destruct (Z.ltb_spec (Z.of_nat i) 0); [lia|].
    rewrite Z.min_l by lia. by rewrite Nat2Z.id. }
  pose proof (insert_index_step _ _ a l (Z.of_nat i) v e1 Hroot Ha' Hne)
    as Hstep.
  rewrite Hins in Hstep. cbn [lift] in Hstep.
  split.
  - unfold at_i. rewrite (patch_single _ _ _ _ _ Hstep).
    destruct (wrapper_after_write h (PRef a) a _
                (PList (take i l ++ v :: drop i l)) Ha) as [Hw Hget].
    cbn iota. by rewrite Hw, Hget.
  - rewrite patch_list_unfold. unfold at_i. cbn [for_each].
    rewrite Hstep.
    rewrite (del_index_step _ (length h) a (take i l ++ v :: drop i l)
               (Z.of_nat i)).
    + unfold list_len. rewrite norm_index_nat; last first.
      { rewrite length_app, length_take. simpl. rewrite length_drop. lia. }
      rewrite list_insert_insert_eq. unfold remove_at.
      assert (length (take i l) = i) as Htake by (rewrite length_take; lia).
      rewrite take_app_length' by done.
      rewrite (cons_middle v), app_assoc.
      rewrite (drop_app_length' _ _ (S i)); last first.
      { rewrite length_app. simpl. lia. }
      rewrite take_drop, list_insert_id by done.
      by rewrite (getitem_wrapper _ _ (PRef a)).
    + by rewrite list_lookup_insert_ne.
    + apply list_lookup_insert_eq. by eapply lookup_lt_Some.
    + done.
Qed.

Lemma insert_then_del_witness :
  patch doc_10_20_30 (PRef 0%nat)
    (inl (Operation "insert" "$[1]" (Some PNone) None))
  = (Ok (PRef 0%nat),
     [PList [PInt 10; PNone; PInt 20; PInt 30]; PList [PRef 0%nat]])
  /\ patch doc_10_20_30 (PRef 0%nat)
       (inr [Operation "insert" "$[1]" (Some PNone) None;
             Operation "del" "$[1]" None None])
     = (Ok (PRef 0%nat), doc_10_20_30 ++ [PList [PRef 0%nat]]).
Proof.
  apply (insert_then_del doc_10_20_30 0%nat [PInt 10; PInt 20; PInt 30]
           1%nat PNone None None None eq_refl).
  - simpl. lia.
  - vm_compute. discriminate.
Defined.

(** ** Literals *)



(** ** Merging a dict *)

Lemma dict_get_None_keys d k : k ∉ dict_keys d -> dict_get d k = None.
Proof.
  unfold dict_keys. induction d as [|[k' v] d IH]; cbn; [done|].
  intros Hk. apply not_elem_of_cons in Hk as [Hne Hk].
  destruct (String.eqb_spec k' k); [congruence|by apply IH].
Qed.

Lemma dict_merge_get (d2 : list (string * pyval)) :
  NoDup (dict_keys d2) ->
  forall d k,
  dict_get (foldl (fun d kv => dict_set d kv.1 kv.2) d d2) k
  = match dict_get d2 k with
    | Some v => Some v
    | None => dict_get d k
    end.
Proof.
  unfold dict_keys. induction d2 as [|[k0 v0] d2 IH]; intros Hnd d k; [done|].
  cbn in Hnd. apply NoDup_cons in Hnd as [Hk0 Hnd].
  cbn [foldl fst snd dict_get]. rewrite IH by done.
  destruct (String.eqb_spec k0 k) as [->|Hne].
  - rewrite dict_get_None_keys by done. apply dict_get_set_eq.
  - destruct (dict_get d2 k); [done|]. by apply dict_get_set_ne.
Qed.

(** X24. [update] on the path [$] with a dict merges it into a dict
    document, in place: afterwards every key of the value holds the
    item of the value, and every other key holds what it held. *)
Theorem update_root_merges
    (h : heap) (a b : addr) (d d2 : list (string * pyval))
    (e : option string) :
  h !! a = Some (PDict d) ->
  h !! b = Some (PDict d2) ->
  NoDup (dict_keys d2) ->
  exists merged,
    patch h (PRef a) (inl (Operation "update" "$" (Some (PRef b)) e))
    = (Ok (PRef a), <[a := PDict merged]> h ++ [PList [PRef a]])
    /\ forall k, dict_get merged k
                 = match dict_get d2 k with
                   | Some v => Some v
                   | None => dict_get d k
                   end.
Proof.
  intros Ha Hb Hnd.
  exists (foldl (fun d kv => dict_set d kv.1 kv.2) d d2).
  split; [|intros k; by apply dict_merge_get].
  pose proof (wrapper_lookup h (PRef a)) as Hroot.
  pose proof (lookup_app_l_Some _ [PList [PRef a]] _ _ Ha) as Ha'.
  pose proof (lookup_app_l_Some _ [PList [PRef a]] _ _ Hb) as Hb'.
  erewrite patch_single; last first.
  { unfold patch_operation.
    cbn [op path value expr String.eqb Ascii.eqb Bool.eqb read_field].
    rewrite (traverser_root _ _ [PRef a]) by done. cbn [for_each].
    rewrite (getitem_wrapper _ _ (PRef a)) by done.
    unfold dict_update, as_dict, deref. rewrite Ha', Hb'.
    cbn [mbind res_bind]. reflexivity. }
  destruct (wrapper_after_write h (PRef a) a _
              (PDict (foldl (fun d kv => dict_set d kv.1 kv.2) d d2)) Ha)
    as [Hw Hget].
  cbn iota. by rewrite Hw, Hget.
Qed.

Lemma update_root_merges_witness :
  exists merged,
    patch [PDict [("a", PInt 1); ("b", PInt 2)];
           PDict [("b", PInt 3); ("c", PInt 4)]]
      (PRef 0%nat) (inl (Operation "update" "$" (Some (PRef 1%nat)) None))
    = (Ok (PRef 0%nat),
       <[0%nat := PDict merged]>
         [PDict [("a", PInt 1); ("b", PInt 2)];
          PDict [("b", PInt 3); ("c", PInt 4)]]
       ++ [PList [PRef 0%nat]])
    /\ forall k, dict_get merged k
                 = match dict_get [("b", PInt 3); ("c", PInt 4)] k with
                   | Some v => Some v
                   | None => dict_get [("a", PInt 1); ("b", PInt 2)] k
                   end.
Proof.
  apply (update_root_merges
           [PDict [("a", PInt 1); ("b", PInt 2)];
            PDict [("b", PInt 3); ("c", PInt 4)]] 0%nat 1%nat
           [("a", PInt 1); ("b", PInt 2)] [("b", PInt 3); ("c", PInt 4)]
           None eq_refl eq_refl).
  by apply (bool_decide_unpack _).
Defined.

(** ** Filters that compare with an integer *)











Section comparison_filter.
Context (g : heap) (root a : addr) (zs : list Z) (z : Z).
Hypothesis Hroot : g !! root = Some (PList [PRef a]).
Hypothesis Ha : g !! a = Some (PList (PInt <$> zs)).

End comparison_filter.







